(** * ProviderNetease.js (lyrics-plus): the Netease matcher and lyric parsers

    A shallow embedding of [CustomApps/lyrics-plus/ProviderNetease.js]:
    [search], [containCredits], [parseTimestamp], [breakdownLine] and the four
    extractors [getKaraoke], [getSynced], [getTranslation], [getUnsynced].

    - A JavaScript string is the list of its UTF-16 code units ([jsstring]).
    - [undefined] / [null] are [None]; an object with optional properties is a
      record of options.
    - A number is a binary64 value, and [parseInt], [parseFloat], [*] and [+]
      round as the engine does.
    - The three regular expressions that cut strings ([/\r?\n/],
      [/(\[.*?\])|([^\[\]]+)/g], [/\(\d+,(\d+)\)/g]) are written as the
      recognisers they denote; [creditInfoRegExp] is kept as a regular
      expression and run by derivatives.
    - [Utils.*], [encodeURIComponent] and [Spicetify.CosmosAsync.get] live
      outside this file of the repository: they are the fields of the class
      [Host], and every theorem holds for every host. *)

From Stdlib Require Import ZArith NArith List Bool Lia String Ascii QArith.
From Stdlib Require Qcanon.
Import ListNotations.

Set Implicit Arguments.

(** ** JavaScript strings *)

Module JS.

(** A UTF-16 code unit. *)
Definition char := N.

Definition jsstring := list char.

Definition chr (a : ascii) : char := N_of_ascii a.

(** Code units of a source literal: the literal's UTF-8 bytes decoded to code
    points, a code point above U+FFFF written as its surrogate pair. *)
Fixpoint utf16 (bytes : list N) : jsstring :=
  match bytes with
  | [] => []
  | b0 :: r0 =>
    if (b0 <? 128)%N then b0 :: utf16 r0
    else match r0 with
    | [] => [b0]
    | b1 :: r1 =>
      if (b0 <? 224)%N
      then N.lor (N.shiftl (N.land b0 31) 6) (N.land b1 63) :: utf16 r1
      else match r1 with
      | [] => [b0; b1]
      | b2 :: r2 =>
        if (b0 <? 240)%N
        then N.lor (N.shiftl (N.land b0 15) 12)
               (N.lor (N.shiftl (N.land b1 63) 6) (N.land b2 63)) :: utf16 r2
        else match r2 with
        | [] => [b0; b1; b2]
        | b3 :: r3 =>
          let cp := N.lor (N.shiftl (N.land b0 7) 18)
                      (N.lor (N.shiftl (N.land b1 63) 12)
                         (N.lor (N.shiftl (N.land b2 63) 6) (N.land b3 63))) in
          let v := (cp - 65536)%N in
          (55296 + N.shiftr v 10)%N :: (56320 + N.land v 1023)%N :: utf16 r3
        end
      end
    end
  end.

Definition str (s : string) : jsstring :=
  utf16 (map N_of_ascii (list_ascii_of_string s)).

Definition char_eqb (a b : char) : bool := N.eqb a b.

Fixpoint string_eqb (a b : jsstring) : bool :=
  match a, b with
  | [], [] => true
  | x :: a', y :: b' => char_eqb x y && string_eqb a' b'
  | _, _ => false
  end.

(** [!s] for a string: only the empty string is falsy. *)
Definition isEmpty (s : jsstring) : bool :=
  match s with [] => true | _ :: _ => false end.

(** LineTerminator: LF, CR, LS, PS. *)
Definition isLineTerminator (c : char) : bool :=
  (c =? 10)%N || (c =? 13)%N || (c =? 8232)%N || (c =? 8233)%N.

(** WhiteSpace or LineTerminator: what [\s] matches and what [trim] and
    [parseFloat] strip. *)
Definition isWhiteSpace (c : char) : bool :=
  (c =? 9)%N || (c =? 10)%N || (c =? 11)%N || (c =? 12)%N || (c =? 13)%N
  || (c =? 32)%N || (c =? 160)%N || (c =? 5760)%N
  || ((8192 <=? c)%N && (c <=? 8202)%N)
  || (c =? 8232)%N || (c =? 8233)%N || (c =? 8239)%N || (c =? 8287)%N
  || (c =? 12288)%N || (c =? 65279)%N.

(** [\d]. *)
Definition isDigit (c : char) : bool := (48 <=? c)%N && (c <=? 57)%N.

(** Longest prefix whose code units satisfy [p], and the rest. *)
Fixpoint span (p : char -> bool) (s : jsstring) : jsstring * jsstring :=
  match s with
  | [] => ([], [])
  | c :: s' =>
    if p c then let (a, b) := span p s' in (c :: a, b) else ([], s)
  end.

Fixpoint trimStart (s : jsstring) : jsstring :=
  match s with
  | [] => []
  | c :: s' => if isWhiteSpace c then trimStart s' else s
  end.

Definition trimEnd (s : jsstring) : jsstring := rev (trimStart (rev s)).

(** [String.prototype.trim]. *)
Definition trim (s : jsstring) : jsstring := trimEnd (trimStart s).

(** [s.endsWith(c)] for a one-unit [c]. *)
Definition endsWith (s : jsstring) (c : char) : bool :=
  match rev s with
  | [] => false
  | d :: _ => char_eqb d c
  end.

(** [s.replace(c, "")] for a one-unit string [c]: the first occurrence goes. *)
Fixpoint replace_first (c : char) (s : jsstring) : jsstring :=
  match s with
  | [] => []
  | d :: s' => if char_eqb d c then s' else d :: replace_first c s'
  end.

(** [s.split(c)] for a one-unit separator [c]. *)
Fixpoint split_on (c : char) (s : jsstring) : list jsstring :=
  match s with
  | [] => [[]]
  | d :: s' =>
    if char_eqb d c then [] :: split_on c s'
    else match split_on c s' with
         | [] => [[d]]
         | piece :: pieces => (d :: piece) :: pieces
         end
  end.

(** [s.split(/\r?\n/)]: at each index the expression matches ["\r\n"] or
    ["\n"]; the pieces between the matches, the last one included. *)
Fixpoint split_lines (s : jsstring) : list jsstring :=
  match s with
  | [] => [[]]
  | c :: s' =>
    if (c =? 10)%N then [] :: split_lines s'
    else
      let grow := match split_lines s' with
                  | [] => [[c]]
                  | piece :: pieces => (c :: piece) :: pieces
                  end in
      match s' with
      | d :: _ => if (c =? 13)%N && (d =? 10)%N then split_lines s' else grow
      | [] => grow
      end
  end.

End JS.

Import JS.

(** ** Numbers

    A JavaScript number is a binary64 value: [NaN], an infinity, the
    negative zero, or a finite value ([Fin q], with [Fin 0] the positive
    zero).  A finite value is the reduced fraction it is equal to, and every
    operation rounds its exact result to the nearest binary64 value, ties to
    the even significand, as the engine does: 53 bits of significand,
    exponents from -1022 to 1023, subnormal values down to 2^-1074, and
    infinity from 2^1024 on. *)

Module Num.

Inductive number :=
| NaN
| Inf (negative : bool)
| NegZero
| Fin (q : Q).

Definition isNaN (x : number) : bool :=
  match x with NaN => true | _ => false end.

(** An integer that is a binary64 value as it is (up to 2^53 in absolute
    value, and the constants of the code are). *)
Definition ofZ (z : Z) : number := Fin (inject_Z z).

Definition qsign (q : Q) : bool := (Qnum q <? 0)%Z.

(** [e] with [2^e <= a/b < 2^(e+1)], for positive [a] and [b]. *)
Definition floor_log2 (a b : Z) : Z :=
  let e0 := (Z.log2 a - Z.log2 b)%Z in
  let above := if (0 <=? e0)%Z then (b * 2 ^ e0 <=? a)%Z else (b <=? a * 2 ^ (- e0))%Z in
  if above then e0 else (e0 - 1)%Z.

(** The integer nearest to [num/den], the even one of two that are as near. *)
Definition nearest_even (num den : Z) : Z :=
  let q := (num / den)%Z in
  let r := (num mod den)%Z in
  if (2 * r <? den)%Z then q
  else if (den <? 2 * r)%Z then (q + 1)%Z
  else if Z.even q then q else (q + 1)%Z.

(** The binary64 value nearest to [a/b], for positive [a] and [b]: a
    multiple [n * 2^shift] of the spacing of binary64 values around [a/b];
    [None] when it is 2^1024 or more. *)
Definition round_magnitude (a b : Z) : option Q :=
  let e := floor_log2 a b in
  let shift := (Z.max e (-1022) - 52)%Z in
  if (0 <=? shift)%Z then
    let n := nearest_even a (b * 2 ^ shift) in
    if (2 ^ 1024 <=? n * 2 ^ shift)%Z then None
    else Some (inject_Z (n * 2 ^ shift))
  else
    let n := nearest_even (a * 2 ^ (- shift)) b in
    Some (Qred (Qmake n (Z.to_pos (2 ^ (- shift))))).

(** The binary64 value nearest to a fraction; a negative fraction too small
    for binary64 becomes the negative zero. *)
Definition round64 (q : Q) : number :=
  match Qnum q with
  | Z0 => Fin 0
  | Zpos a =>
    match round_magnitude (Zpos a) (Zpos (Qden q)) with
    | None => Inf false
    | Some r => Fin r
    end
  | Zneg a =>
    match round_magnitude (Zpos a) (Zpos (Qden q)) with
    | None => Inf true
    | Some r => if (Qnum r =? 0)%Z then NegZero else Fin (Qopp r)
    end
  end.

(** The binary64 value nearest to an integer. *)
Definition ofInteger (z : Z) : number := round64 (inject_Z z).

Definition zero (negative : bool) : number :=
  if negative then NegZero else Fin 0.

(** The number a literal of sign [negative] and of magnitude [q] stands
    for: [-0] is the negative zero. *)
Definition signed (negative : bool) (q : Q) : number :=
  if (Qnum q =? 0)%Z then zero negative
  else round64 (if negative then Qopp q else q).

Definition isZero (x : number) : bool :=
  match x with
  | NegZero => true
  | Fin q => (Qnum q =? 0)%Z
  | _ => false
  end.

Definition isInf (x : number) : bool :=
  match x with Inf _ => true | _ => false end.

Definition negative (x : number) : bool :=
  match x with
  | NaN => false
  | Inf n => n
  | NegZero => true
  | Fin q => qsign q
  end.

(** [x * y]. *)
Definition mul (x y : number) : number :=
  if isNaN x || isNaN y then NaN
  else
    let s := xorb (negative x) (negative y) in
    if isInf x || isInf y then (if isZero x || isZero y then NaN else Inf s)
    else if isZero x || isZero y then zero s
    else match x, y with
         | Fin p, Fin q => round64 (p * q)
         | _, _ => NaN
         end.

(** [x + y]. *)
Definition add (x y : number) : number :=
  match x, y with
  | NaN, _ | _, NaN => NaN
  | Inf a, Inf b => if Bool.eqb a b then Inf a else NaN
  | Inf a, _ | _, Inf a => Inf a
  | NegZero, NegZero => NegZero
  | NegZero, Fin q | Fin q, NegZero => Fin q
  | Fin p, Fin q => round64 (p + q)
  end.

Definition digitValue (c : char) : Z := Z.of_N c - 48.

(** The value of a run of decimal digits. *)
Definition decimal (ds : jsstring) : Z :=
  fold_left (fun acc c => 10 * acc + digitValue c)%Z ds 0%Z.

Definition hexValue (c : char) : option Z :=
  if isDigit c then Some (Z.of_N c - 48)%Z
  else if ((65 <=? c) && (c <=? 70))%N then Some (Z.of_N c - 55)%Z
  else if ((97 <=? c) && (c <=? 102))%N then Some (Z.of_N c - 87)%Z
  else None.

Definition isHexDigit (c : char) : bool :=
  match hexValue c with Some _ => true | None => false end.

Definition hexadecimal (ds : jsstring) : Z :=
  fold_left (fun acc c => 16 * acc + match hexValue c with Some v => v | None => 0 end)%Z
    ds 0%Z.

(** [m * 10^e] as a reduced fraction. *)
Definition scale10 (m e : Z) : Q :=
  if (0 <=? e)%Z then inject_Z (m * 10 ^ e)
  else Qred (Qmake m (Z.to_pos (10 ^ (- e)))).

Definition startsWith (p s : jsstring) : bool :=
  string_eqb p (firstn (List.length p) s).

(** The optional sign of a numeric literal: whether it is [-], and the rest. *)
Definition sign (s : jsstring) : bool * jsstring :=
  match s with
  | c :: s' =>
    if (c =? 45)%N then (true, s') else if (c =? 43)%N then (false, s') else (false, s)
  | [] => (false, [])
  end.

(** ExponentPart at the head of [s], when there is one: [e] or [E], an
    optional sign, one digit or more. *)
Definition exponent (s : jsstring) : Z :=
  match s with
  | c :: s' =>
    if ((c =? 101) || (c =? 69))%N then
      let (neg, s2) := sign s' in
      let (ds, _) := span isDigit s2 in
      if isEmpty ds then 0%Z else if neg then (- decimal ds)%Z else decimal ds
    else 0%Z
  | [] => 0%Z
  end.

(** [parseFloat(s)]: leading white space is skipped, then the longest prefix
    that is a StrDecimalLiteral is read, and its value rounded to binary64;
    [NaN] when there is none. *)
Definition parseFloat (s : jsstring) : number :=
  let (neg, u) := sign (trimStart s) in
  if startsWith (str "Infinity") u then Inf neg
  else
    let (ip, r1) := span isDigit u in
    let (fp, r2) :=
      match r1 with
      | c :: r => if (c =? 46)%N then span isDigit r else ([], r1)
      | [] => ([], r1)
      end in
    if isEmpty ip && isEmpty fp then NaN
    else
      let m := decimal (ip ++ fp) in
      let e := (exponent r2 - Z.of_nat (List.length fp))%Z in
      signed neg (scale10 m e).

(** [parseFloat(undefined)]: the argument is first turned into the string
    ["undefined"], which holds no number. *)
Definition parseFloat_opt (s : option jsstring) : number :=
  match s with
  | Some s => parseFloat s
  | None => parseFloat (str "undefined")
  end.

(** [parseInt(s)] with no radix: white space, a sign, [0x]/[0X] for radix 16,
    then the longest run of digits of the radix, and its value rounded to
    binary64; [NaN] when the run is empty. *)
Definition parseInt (s : jsstring) : number :=
  let (neg, u) := sign (trimStart s) in
  if startsWith (str "0x") u || startsWith (str "0X") u then
    let (ds, _) := span isHexDigit (skipn 2 u) in
    if isEmpty ds then NaN else signed neg (inject_Z (hexadecimal ds))
  else
    let (ds, _) := span isDigit u in
    if isEmpty ds then NaN else signed neg (inject_Z (decimal ds)).

End Num.

Import Num.

(** ** Regular expressions ([creditInfoRegExp])

    The fragment the credit filter is written in: literal characters, [.],
    [\s], alternation, concatenation, [?] and [*].  [RegExp.prototype.test]
    on a pattern anchored by [^] asks whether some prefix of the text is in
    the pattern's language; it is decided by derivatives. *)

Module RegExp.

Inductive regex :=
| Void                       (* matches nothing *)
| Eps                        (* the empty string *)
| Chr (c : char)             (* a literal character *)
| Dot                        (* [.] : anything but a line terminator *)
| Space                      (* [\s] *)
| Alt (r1 r2 : regex)        (* [r1|r2] *)
| Cat (r1 r2 : regex)        (* [r1r2] *)
| Opt (r : regex)            (* [r?] *)
| Star (r : regex).          (* [r*] *)

(** Canonicalize of the [i] flag.  The characters of [creditInfo] are ASCII
    letters and punctuation, Han characters and U+FF1A; none of the latter
    is the upper case of another character, and a character from U+0080 on
    never canonicalizes into ASCII, so folding [a-z] decides every
    comparison against a character of the pattern. *)
Definition canonicalize (c : char) : char :=
  if ((97 <=? c) && (c <=? 122))%N then (c - 32)%N else c.

Definition char_matches (ignoreCase : bool) (pattern c : char) : bool :=
  if ignoreCase then char_eqb (canonicalize pattern) (canonicalize c)
  else char_eqb pattern c.

Fixpoint nullable (r : regex) : bool :=
  match r with
  | Void | Chr _ | Dot | Space => false
  | Eps | Opt _ | Star _ => true
  | Alt r1 r2 => nullable r1 || nullable r2
  | Cat r1 r2 => nullable r1 && nullable r2
  end.

Definition alt (r1 r2 : regex) : regex :=
  match r1, r2 with
  | Void, _ => r2
  | _, Void => r1
  | _, _ => Alt r1 r2
  end.

Definition cat (r1 r2 : regex) : regex :=
  match r1, r2 with
  | Void, _ | _, Void => Void
  | Eps, _ => r2
  | _, _ => Cat r1 r2
  end.

(** What is left of [r] after reading [c]. *)
Fixpoint deriv (ignoreCase : bool) (c : char) (r : regex) : regex :=
  match r with
  | Void | Eps => Void
  | Chr p => if char_matches ignoreCase p c then Eps else Void
  | Dot => if isLineTerminator c then Void else Eps
  | Space => if isWhiteSpace c then Eps else Void
  | Alt r1 r2 => alt (deriv ignoreCase c r1) (deriv ignoreCase c r2)
  | Cat r1 r2 =>
    alt (cat (deriv ignoreCase c r1) r2)
        (if nullable r1 then deriv ignoreCase c r2 else Void)
  | Opt r1 => deriv ignoreCase c r1
  | Star r1 => cat (deriv ignoreCase c r1) (Star r1)
  end.

(** [/^r/.test(s)]: some prefix of [s] matches [r]. *)
Fixpoint test_anchored (ignoreCase : bool) (r : regex) (s : jsstring) : bool :=
  nullable r ||
  match s with
  | [] => false
  | c :: s' => test_anchored ignoreCase (deriv ignoreCase c r) s'
  end.

(** The words of [r]: the reference the derivatives are checked against. *)
Inductive matches (i : bool) : regex -> jsstring -> Prop :=
| m_eps : matches i Eps []
| m_chr p c : char_matches i p c = true -> matches i (Chr p) [c]
| m_dot c : isLineTerminator c = false -> matches i Dot [c]
| m_space c : isWhiteSpace c = true -> matches i Space [c]
| m_alt_l r1 r2 s : matches i r1 s -> matches i (Alt r1 r2) s
| m_alt_r r1 r2 s : matches i r2 s -> matches i (Alt r1 r2) s
| m_cat r1 r2 s1 s2 : matches i r1 s1 -> matches i r2 s2 -> matches i (Cat r1 r2) (s1 ++ s2)
| m_opt_none r : matches i (Opt r) []
| m_opt_some r s : matches i r s -> matches i (Opt r) s
| m_star_nil r : matches i (Star r) []
| m_star_cons r s1 s2 :
    matches i r s1 -> matches i (Star r) s2 -> matches i (Star r) (s1 ++ s2).

(** A literal word. *)
Definition lit (w : string) : regex := fold_right Cat Eps (map Chr (str w)).

(** [r1|r2|...]. *)
Definition alts (rs : list regex) : regex := fold_right Alt Void rs.

(** [r1r2...]. *)
Definition cats (rs : list regex) : regex := fold_right Cat Eps rs.

End RegExp.

Import RegExp.

(** ** The credit-line filter (lines 77-87) *)

(** [creditInfo]: the four alternations, in the order of the array. *)
Definition creditInfo : list regex :=
  [ (* "\\s?作?\\s*词|\\s?作?\\s*曲|\\s?编\\s*曲?|\\s?监\\s*制?" *)
    alts [ cats [Opt Space; Opt (lit "作"); Star Space; lit "词"];
           cats [Opt Space; Opt (lit "作"); Star Space; lit "曲"];
           cats [Opt Space; lit "编"; Star Space; Opt (lit "曲")];
           cats [Opt Space; lit "监"; Star Space; Opt (lit "制")] ];
    (* ".*编写|.*和音|.*和声|.*合声|.*提琴|.*录|.*工程|.*工作室|.*设计|.*剪辑|.*制作|.*发行|.*出品|.*后期|.*混音|.*缩混" *)
    alts (map (fun w => Cat (Star Dot) (lit w))
            [ "编写"; "和音"; "和声"; "合声"; "提琴"; "录"; "工程"; "工作室";
              "设计"; "剪辑"; "制作"; "发行"; "出品"; "后期"; "混音"; "缩混" ]%string);
    (* "原唱|翻唱|题字|文案|海报|古筝|二胡|钢琴|吉他|贝斯|笛子|鼓|弦乐" *)
    alts (map lit
            [ "原唱"; "翻唱"; "题字"; "文案"; "海报"; "古筝"; "二胡"; "钢琴";
              "吉他"; "贝斯"; "笛子"; "鼓"; "弦乐" ]%string);
    (* "lrc|publish|vocal|guitar|program|produce|write|mix" *)
    alts (map lit
            [ "lrc"; "publish"; "vocal"; "guitar"; "program"; "produce";
              "write"; "mix" ]%string) ].

(** [new RegExp(`^(${creditInfo.join("|")}).*(:|：)`, "i")], without its [^]. *)
Definition creditInfoRegExp : regex :=
  cats [alts creditInfo; Star Dot; Alt (lit ":") (lit "：")].

Definition containCredits (text : jsstring) : bool :=
  test_anchored true creditInfoRegExp text.

(** ** Cutting a line into spans (line 96)

    [line.match(/(\[.*?\])|([^\[\]]+)/g)]: from each index on, the leftmost
    match.  At a ["["] the first alternative takes the shortest run up to a
    ["]"], with no line terminator inside ([.] refuses them); at any other
    character but ["]"] the second alternative takes the longest run free of
    brackets; where neither matches the search moves one index on. *)

Definition lbracket : char := chr "[".
Definition rbracket : char := chr "]".

Definition isBracket (c : char) : bool := char_eqb c lbracket || char_eqb c rbracket.

(** [.*?\]] after an opening bracket: the content and what follows the
    closing bracket. *)
Fixpoint bracket_body (s : jsstring) : option (jsstring * jsstring) :=
  match s with
  | [] => None
  | c :: s' =>
    if char_eqb c rbracket then Some ([], s')
    else if isLineTerminator c then None
    else match bracket_body s' with
         | Some (body, rest) => Some (c :: body, rest)
         | None => None
         end
  end.

Fixpoint match_spans (fuel : nat) (s : jsstring) : list jsstring :=
  match fuel with
  | O => []
  | S fuel' =>
    match s with
    | [] => []
    | c :: s' =>
      if char_eqb c lbracket then
        match bracket_body s' with
        | Some (body, rest) => (c :: body ++ [rbracket]) :: match_spans fuel' rest
        | None => match_spans fuel' s'
        end
      else if char_eqb c rbracket then match_spans fuel' s'
      else
        let (run, rest) := span (fun d => negb (isBracket d)) s' in
        (c :: run) :: match_spans fuel' rest
    end
  end.

(** The matches of a line, in order; the empty list stands for [null].  Every
    step consumes a character, so the length of the line is fuel enough. *)
Definition spans (line : jsstring) : list jsstring :=
  match_spans (List.length line) line.

(** ** The karaoke tokenizer (lines 114-127) *)

Definition lparen : char := chr "(".
Definition rparen : char := chr ")".
Definition comma : char := chr ",".
Definition space : char := chr " ".

(** [/\(\d+,(\d+)\)/] tried at the head of [s]: the capture and what follows
    the match.  Each [\d+] takes every digit there is: the character after it
    has to be [","] or [")"], so giving digits back never helps. *)
Definition match_marker (s : jsstring) : option (jsstring * jsstring) :=
  match s with
  | [] => None
  | c :: s1 =>
    if char_eqb c lparen then
      let (d1, s2) := span isDigit s1 in
      match d1, s2 with
      | _ :: _, c2 :: s3 =>
        if char_eqb c2 comma then
          let (d2, s4) := span isDigit s3 in
          match d2, s4 with
          | _ :: _, c3 :: s5 => if char_eqb c3 rparen then Some (d2, s5) else None
          | _, _ => None
          end
        else None
      | _, _ => None
      end
    else None
  end.

(** A character goes to the piece being read. *)
Definition push_front (c : char) (pieces : list jsstring) : list jsstring :=
  match pieces with
  | [] => [[c]]
  | piece :: rest => (c :: piece) :: rest
  end.

Fixpoint split_markers_fuel (fuel : nat) (s : jsstring) : list jsstring :=
  match fuel with
  | O => [[]]
  | S fuel' =>
    match match_marker s with
    | Some (capture, rest) => [] :: capture :: split_markers_fuel fuel' rest
    | None =>
      match s with
      | [] => [[]]
      | c :: s' => push_front c (split_markers_fuel fuel' s')
      end
    end
  end.

(** [text.split(/\(\d+,(\d+)\)/g)]: the pieces between the markers, each
    marker leaving its capture between two pieces. *)
Definition split_markers (text : jsstring) : list jsstring :=
  split_markers_fuel (List.length text) text.

(** An element of [result]. *)
Record Word := { word : jsstring; time : number }.

(** The loop [for (let i = 1; i < components.length; i += 2)], on the
    components from index [i] on.  [components[i + 1]] out of range is
    [undefined]: not [" "], and ["undefined "] once [" "] is added. *)
Fixpoint breakdown_loop (components : list jsstring) : list Word :=
  match components with
  | [] => []
  | ci :: after =>
    match after with
    | [] => [ {| word := str "undefined" ++ [space]; time := parseInt ci |} ]
    | next :: components' =>
      if string_eqb next [space] then breakdown_loop components'
      else {| word := next ++ [space]; time := parseInt ci |}
           :: breakdown_loop components'
    end
  end.

Definition breakdownLine (text : jsstring) : list Word :=
  let components := split_markers text in
  breakdown_loop (skipn 1 components).

(** ** What the file takes from outside

    [Utils] (normalize, removeSongFeat, removeExtraInfo, containsHanCharacter,
    toSimplifiedChinese, capitalize) is another file of the repository;
    [encodeURIComponent] and [Spicetify.CosmosAsync.get] belong to the
    engine and to the client.  [await] runs the awaited call to its end
    before the next statement, so an awaited call is a call.  A request
    that fails ends [search] before its loop starts; the model is of the
    runs in which the catalogue answers. *)

(** One element of [result.songs]: [al] is the album, [dt] the duration in
    milliseconds. *)
Record Album := { al_name : jsstring }.
Record Song := { name : jsstring; id : Z; dt : Z; al : Album }.

(** The argument of [search] and [findLyrics]. *)
Record Info := { title : jsstring; artist : jsstring; album : jsstring; duration : Z }.

Class Host := {
  (** [Utils.normalize(s, emptySymbol)]; [None] when the call gives no
      second argument *)
  normalize : jsstring -> option bool -> jsstring;
  removeSongFeat : jsstring -> jsstring;
  removeExtraInfo : jsstring -> jsstring;
  containsHanCharacter : jsstring -> bool;
  toSimplifiedChinese : jsstring -> jsstring;
  capitalize : jsstring -> jsstring;
  encodeURIComponent : jsstring -> jsstring;
  (** [(await Spicetify.CosmosAsync.get(url)).result.songs] *)
  CosmosAsync_get_songs : jsstring -> list Song
}.

(** What a call ends in: a value, or the value thrown. *)
Inductive completion (A : Type) :=
| Return (a : A)
| Throw (thrown : jsstring).

Arguments Return {A} a.
Arguments Throw {A} thrown.

(** The one thing [search] throws (line 55); the spec's NotFoundError. *)
Definition NotFoundError : jsstring := str "Cannot find track".

Module Parsed.
(** What [parseTimestamp] returns: [{ text }] or [{ time, text }]. *)
Record t := { time : option jsstring; text : option jsstring }.
End Parsed.

Module Synced.
(** A line of [getSynced] and [getTranslation]. *)
Record t := { startTime : number; text : jsstring }.
End Synced.

Module Karaoke.
(** A line of [getKaraoke]. *)
Record t := { startTime : number; text : list Word }.
End Karaoke.

(** The answer of the lyrics request, as far as the extractors read it:
    [list?.lrc?.lyric], [list?.klyric?.lyric], [list?.tlyric?.lyric]. *)
Record Block := { lyric : option jsstring }.
Record Lyrics := { lrc : option Block; klyric : option Block; tlyric : option Block }.

(** [list?.field?.lyric]. *)
Definition lyric_of (field : Lyrics -> option Block) (list : option Lyrics) : option jsstring :=
  match list with
  | None => None
  | Some l => match field l with
              | None => None
              | Some b => lyric b
              end
  end.

(** [lyricStr.split(/\r?\n/).map(line => line.trim())]. *)
Definition lines_of (lyricStr : jsstring) : list jsstring :=
  map trim (split_lines lyricStr).

(** [!x] for a string that may be [undefined]. *)
Definition falsy (x : option jsstring) : bool :=
  match x with
  | None => true
  | Some s => isEmpty s
  end.

(** [x === s] for a string [s]. *)
Definition strict_eq (x : option jsstring) (s : jsstring) : bool :=
  match x with
  | None => false
  | Some y => string_eqb y s
  end.

(** [array.findIndex(p)], [None] for [-1]. *)
Fixpoint findIndex {A} (p : A -> bool) (l : list A) : option nat :=
  match l with
  | [] => None
  | x :: l' => if p x then Some O
               else match findIndex p l' with
                    | Some i => Some (S i)
                    | None => None
                    end
  end.

(** [array.splice(i, 1)]: the array without its element at [i]. *)
Fixpoint splice1 {A} (i : nat) (l : list A) : list A :=
  match l, i with
  | [], _ => []
  | _ :: l', O => l'
  | x :: l', S i' => x :: splice1 i' l'
  end.

(** [array.filter(a => a)] on an array of objects and [null]s. *)
Fixpoint compact {A} (l : list (option A)) : list A :=
  match l with
  | [] => []
  | Some a :: l' => a :: compact l'
  | None :: l' => compact l'
  end.

(** The literal of lines 175 and 239. *)
Definition instrumental : jsstring := str "纯音乐, 请欣赏".

Section Provider.

Context {host : Host}.

(** *** search (lines 30-56) *)

Definition searchURL : jsstring :=
  str "https://pyncmd.apis.imouto.in/api/pyncm?module=cloudsearch&method=GetSearchResult&keyword=".

(** [expectedAlbumName] (lines 46-47). *)
Definition expectedAlbumName (info : Info) : jsstring :=
  let neAlbumName := normalize (album info) None in
  if containsHanCharacter neAlbumName then toSimplifiedChinese neAlbumName
  else neAlbumName.

(** [actualAlbumName] (line 48). *)
Definition actualAlbumName (song : Song) : jsstring :=
  normalize (al_name (al song)) None.

(** The condition of line 50. *)
Definition accepted (info : Info) (song : Song) : bool :=
  let expectedDuration := duration info in
  let actualDuration := dt song in
  string_eqb (actualAlbumName song) (expectedAlbumName info)
  || (Z.abs (expectedDuration - actualDuration) <? 1000)%Z.

(** The loop of lines 41-53 and the [throw] after it. *)
Fixpoint best_match (info : Info) (items : list Song) : completion Song :=
  match items with
  | [] => Throw NotFoundError
  | song :: items' =>
    if accepted info song then Return song else best_match info items'
  end.

(** The address asked for (lines 33-34). *)
Definition finalURL (info : Info) : jsstring :=
  let cleanTitle := removeExtraInfo (removeSongFeat (normalize (title info) None)) in
  searchURL ++ encodeURIComponent (cleanTitle ++ [space] ++ artist info).

Definition search (info : Info) : completion Song :=
  let items := CosmosAsync_get_songs (finalURL info) in
  best_match info items.

(** *** parseTimestamp (lines 89-112) *)

Definition parseTimestamp (line : jsstring) : Parsed.t :=
  let matchResult := spans line in
  if (List.length matchResult =? 0)%nat || (List.length matchResult =? 1)%nat then
    {| Parsed.time := None; Parsed.text := Some line |}
  else
    let textIndex := findIndex (fun slice => negb (endsWith slice rbracket)) matchResult in
    let '(text, matchResult) :=
      match textIndex with
      | Some i => (capitalize (normalize (nth i matchResult []) (Some false)), splice1 i matchResult)
      | None => ([], matchResult)
      end in
    let time := replace_first rbracket (replace_first lbracket (nth 0 matchResult [])) in
    {| Parsed.time := Some time; Parsed.text := Some text |}.

(** *** getKaraoke (lines 129-161) *)

(** [const [a, b] = time.split(c)]. *)
Definition first_two (pieces : list jsstring) : option jsstring * option jsstring :=
  (nth_error pieces 0, nth_error pieces 1).

Definition karaoke_line (line : jsstring) : option Karaoke.t :=
  let p := parseTimestamp line in
  if falsy (Parsed.time p) || falsy (Parsed.text p) then None
  else
    let time := match Parsed.time p with Some t => t | None => [] end in
    let text := match Parsed.text p with Some t => t | None => [] end in
    let (key, value) := first_two (split_on comma time) in
    let start := parseFloat_opt key in
    let durr := parseFloat_opt value in
    if negb (isNaN start) && negb (isNaN durr) && negb (containCredits text) then
      Some {| Karaoke.startTime := start; Karaoke.text := breakdownLine text |}
    else None.

Definition getKaraoke (list : option Lyrics) : option (Datatypes.list Karaoke.t) :=
  match lyric_of klyric list with
  | None => None
  | Some lyricStr =>
    if isEmpty lyricStr then None
    else
      let lines := lines_of lyricStr in
      let karaoke := compact (map karaoke_line lines) in
      if (List.length karaoke =? 0)%nat then None else Some karaoke
  end.

(** *** getSynced (lines 163-194) and getTranslation (lines 196-225) *)

(** The body both callbacks share, after the check of the notice. *)
Definition synced_line (p : Parsed.t) : option Synced.t :=
  if falsy (Parsed.time p) || falsy (Parsed.text p) then None
  else
    let time := match Parsed.time p with Some t => t | None => [] end in
    let text := match Parsed.text p with Some t => t | None => [] end in
    let (key, value) := first_two (split_on (chr ":") time) in
    let min := parseFloat_opt key in
    let sec := parseFloat_opt value in
    if negb (isNaN min) && negb (isNaN sec) && negb (containCredits text) then
      Some {| Synced.startTime := Num.mul (Num.add (Num.mul min (ofZ 60)) sec) (ofZ 1000);
              Synced.text := if isEmpty text then [] else text |}
    else None.

(** [lines.map(callback)] for a callback that may set the flag [noLyrics]:
    the mapped array, and the flag after the last line. *)
Fixpoint map_flag {A B} (f : A -> bool -> B * bool) (l : list A) (flag : bool)
  : list B * bool :=
  match l with
  | [] => ([], flag)
  | x :: l' =>
    let (y, flag1) := f x flag in
    let (ys, flag2) := map_flag f l' flag1 in
    (y :: ys, flag2)
  end.

Definition getSynced (list : option Lyrics) : option (Datatypes.list Synced.t) :=
  match lyric_of lrc list with
  | None => None
  | Some lyricStr =>
    let noLyrics := false in
    if isEmpty lyricStr then None
    else
      let lines := lines_of lyricStr in
      let (mapped, noLyrics) :=
        map_flag (fun line noLyrics =>
                    let p := parseTimestamp line in
                    let noLyrics :=
                      if strict_eq (Parsed.text p) instrumental then true else noLyrics in
                    (synced_line p, noLyrics))
                 lines noLyrics in
      let lyrics := compact mapped in
      if (List.length lyrics =? 0)%nat || noLyrics then None else Some lyrics
  end.

Definition getTranslation (list : option Lyrics) : option (Datatypes.list Synced.t) :=
  match lyric_of tlyric list with
  | None => None
  | Some lyricStr =>
    if isEmpty lyricStr then None
    else
      let lines := lines_of lyricStr in
      let translation := compact (map (fun line => synced_line (parseTimestamp line)) lines) in
      if (List.length translation =? 0)%nat then None else Some translation
  end.

(** *** getUnsynced (lines 227-249) *)

(** [containCredits(parsed.text)]: [test] turns [undefined] into a string. *)
Definition containCredits_opt (text : option jsstring) : bool :=
  match text with
  | Some t => containCredits t
  | None => containCredits (str "undefined")
  end.

Definition getUnsynced (list : option Lyrics) : option (Datatypes.list Parsed.t) :=
  match lyric_of lrc list with
  | None => None
  | Some lyricStr =>
    let noLyrics := false in
    if isEmpty lyricStr then None
    else
      let lines := lines_of lyricStr in
      let (mapped, noLyrics) :=
        map_flag (fun line noLyrics =>
                    let parsed := parseTimestamp line in
                    let noLyrics :=
                      if strict_eq (Parsed.text parsed) instrumental then true else noLyrics in
                    (if falsy (Parsed.text parsed) || containCredits_opt (Parsed.text parsed)
                     then None else Some parsed,
                     noLyrics))
                 lines noLyrics in
      let lyrics := compact mapped in
      if (List.length lyrics =? 0)%nat || noLyrics then None else Some lyrics
  end.

End Provider.

(** ** A host to run examples on

    Every theorem below is stated for every [Host].  This one only serves to
    evaluate them on concrete inputs: texts pass through unchanged, but for
    [capitalize], which raises a leading ASCII letter; the catalogue answers
    every request with the songs it is given. *)

Definition sample_capitalize (s : jsstring) : jsstring :=
  match s with
  | [] => []
  | c :: s' => canonicalize c :: s'
  end.

Definition sample_host (songs : list Song) : Host :=
  {| normalize := fun s _ => s;
     removeSongFeat := fun s => s;
     removeExtraInfo := fun s => s;
     containsHanCharacter := fun s => existsb (fun c => (19968 <=? c)%N && (c <=? 40959)%N) s;
     toSimplifiedChinese := fun s => s;
     capitalize := sample_capitalize;
     encodeURIComponent := fun s => s;
     CosmosAsync_get_songs := fun _ => songs |}.


(** ** The vocabulary of the statements *)

Section Rule.

Context {host : Host}.

(** The acceptance rule in the spec's words: the normalized album names are
    equal, the query's one simplified first when it holds Han characters, or
    the durations are less than a second apart. *)
Definition acceptance_rule (info : Info) (song : Song) : Prop :=
  normalize (al_name (al song)) None
  = (if containsHanCharacter (normalize (album info) None)
     then toSimplifiedChinese (normalize (album info) None)
     else normalize (album info) None)
  \/ (Z.abs (duration info - dt song) < 1000)%Z.

(** A block of credits: every line of it, once trimmed, is empty or has a
    parsed text the credit filter matches. *)
Definition credits_only (lyricStr : jsstring) : bool :=
  forallb (fun line =>
             isEmpty line
             || match Parsed.text (parseTimestamp line) with
                | Some text => containCredits text
                | None => false
                end)
          (lines_of lyricStr).

End Rule.

(** A bracketed span opens with a bracket; its content is the span without
    its first and its last character. *)
Definition isBracketed (s : jsstring) : bool :=
  match s with
  | [] => false
  | c :: _ => char_eqb c lbracket
  end.

Definition content (s : jsstring) : jsstring := removelast (tl s).

(** The two shapes a span has: a tag, brackets around a content free of
    ["]"], or a text, non-empty and free of brackets. *)
Definition tag_shape (t : jsstring) : Prop :=
  exists body, t = lbracket :: body ++ [rbracket] /\ ~ In rbracket body.

Definition text_shape (t : jsstring) : Prop :=
  t <> [] /\ forallb (fun d => negb (isBracket d)) t = true.

(** A timing marker [(first,second)] of a karaoke text: two runs of digits. *)
Record Marker := { first_field : jsstring; second_field : jsstring }.

Definition digits (s : jsstring) : bool := negb (isEmpty s) && forallb isDigit s.

Definition marker_text (m : Marker) : jsstring :=
  lparen :: first_field m ++ comma :: second_field m ++ [rparen].

(** No marker starts anywhere in [w]. *)
Fixpoint no_marker (w : jsstring) : bool :=
  match w with
  | [] => true
  | _ :: w' =>
    match match_marker w with
    | Some _ => false
    | None => no_marker w'
    end
  end.

(** A karaoke text: what stands before the first marker, then each marker
    followed by its span. *)
Definition karaoke_text (lead : jsstring) (l : list (Marker * jsstring)) : jsstring :=
  lead ++ List.concat (map (fun item => marker_text (fst item) ++ snd item) l).

Definition karaoke_ok (l : list (Marker * jsstring)) : bool :=
  forallb (fun item =>
             digits (first_field (fst item)) && digits (second_field (fst item))
             && no_marker (snd item))
          l.

(** The text of a karaoke line without its markers. *)
Definition spoken (l : list (Marker * jsstring)) : jsstring :=
  List.concat (map snd l).

(** A text without its spaces. *)
Definition unspaced (s : jsstring) : jsstring :=
  filter (fun c => negb (char_eqb c space)) s.

(** Words separated by single-space spans, as the spans of a karaoke text. *)
Definition spaced_words (w : jsstring) (ws : list jsstring) : list jsstring :=
  w :: flat_map (fun w' => [[space]; w']) ws.

(** What [breakdownLine] makes of a marker and its span: the time is the
    decimal value of the second field, as the number nearest to it. *)
Definition token_of (item : Marker * jsstring) : list Word :=
  if string_eqb (snd item) [space] then []
  else [ {| word := snd item ++ [space];
            time := ofInteger (decimal (second_field (fst item))) |} ].

(** ** Auxiliary notions of the proofs *)

(** Where a piece of text may end without changing what was read before:
    at the end of the text, or at an opening parenthesis. *)
Definition boundary (x : jsstring) : Prop :=
  match x with
  | [] => True
  | c :: _ => c = lparen
  end.

(** A piece goes in front of the first piece of what follows. *)
Definition prepend (w : jsstring) (pieces : list jsstring) : list jsstring :=
  match pieces with
  | [] => [w]
  | piece :: rest => (w ++ piece) :: rest
  end.

(** The components of a karaoke text after the first: each marker's capture,
    then its span. *)
Definition components_of (l : list (Marker * jsstring)) : list jsstring :=
  flat_map (fun item => [second_field (fst item); snd item]) l.

(** ** Concrete inputs *)

Definition newline : jsstring := [10%N].

(** An answer whose three blocks hold the same text. *)
Definition answer (lyricStr : jsstring) : option Lyrics :=
  Some {| lrc := Some {| lyric := Some lyricStr |};
          klyric := Some {| lyric := Some lyricStr |};
          tlyric := Some {| lyric := Some lyricStr |} |}.

(** A synced block with the notice on its second line. *)
Definition instrumental_block : jsstring :=
  str "[00:01.00]first line" ++ newline ++ str "[00:05.00]纯音乐, 请欣赏".

(** A block of credits: a plain one, a timestamped one, and an empty last
    line. *)
Definition credits_block : jsstring :=
  str "作词：Someone" ++ newline ++ str "[00:01.00]Mixed by: Someone" ++ newline.

(** The line of the comment of line 115, cut short, as markers and spans. *)
Definition dont_want : list (Marker * jsstring) :=
  [ ({| first_field := str "0"; second_field := str "508" |}, str "Don't");
    ({| first_field := str "0"; second_field := str "1" |}, str " ");
    ({| first_field := str "0"; second_field := str "151" |}, str "want");
    ({| first_field := str "0"; second_field := str "1" |}, []) ].

(** Two markers with nothing between them. *)
Definition adjacent_markers : list (Marker * jsstring) :=
  [ ({| first_field := str "0"; second_field := str "5" |}, []);
    ({| first_field := str "7"; second_field := str "9" |}, str "x") ].

(** Three songs: the first matches nothing of [query], the two others both
    match it (the second by its album, the third by its duration). *)
Definition query : Info :=
  {| title := str "Song"; artist := str "Artist"; album := str "Album"; duration := 200000 |}.

Definition other_song : Song :=
  {| name := str "Song"; id := 1; dt := 150000; al := {| al_name := str "Other" |} |}.
Definition album_song : Song :=
  {| name := str "Song"; id := 2; dt := 250000; al := {| al_name := str "Album" |} |}.
Definition duration_song : Song :=
  {| name := str "Song"; id := 3; dt := 200999; al := {| al_name := str "Live" |} |}.
Definition late_song : Song :=
  {| name := str "Song"; id := 4; dt := 201000; al := {| al_name := str "Live" |} |}.

From Stdlib Require DecimalZ.

(** ** findLyrics (lines 68-75) *)

(** [CosmosAsync.get] as [findLyrics] calls it: the answer of the lyrics
    request, [None] for an answer that is [null] or [undefined]. *)
Class Client := {
  CosmosAsync_get : jsstring -> option Lyrics
}.

Fixpoint uint_chars (u : Decimal.uint) : jsstring :=
  match u with
  | Decimal.Nil => []
  | Decimal.D0 u' => 48%N :: uint_chars u'
  | Decimal.D1 u' => 49%N :: uint_chars u'
  | Decimal.D2 u' => 50%N :: uint_chars u'
  | Decimal.D3 u' => 51%N :: uint_chars u'
  | Decimal.D4 u' => 52%N :: uint_chars u'
  | Decimal.D5 u' => 53%N :: uint_chars u'
  | Decimal.D6 u' => 54%N :: uint_chars u'
  | Decimal.D7 u' => 55%N :: uint_chars u'
  | Decimal.D8 u' => 56%N :: uint_chars u'
  | Decimal.D9 u' => 57%N :: uint_chars u'
  end.

(** The decimal digits of a natural number. *)
Definition digitsOf (z : Z) : jsstring :=
  match Z.to_int z with
  | Decimal.Pos u => uint_chars u
  | Decimal.Neg u => uint_chars u
  end.

(** *** Number::toString, on integers

    A positive integer [v] that is a binary64 value is written from the
    integers [n], [k] and [s] with [10^(k-1) <= s < 10^k] such that
    [s * 10^(n-k)] is a real number of value [v] once rounded, [k] being as
    small as possible, and [s * 10^(n-k)] as near to [v] as possible ([s]
    even when two are as near). *)

Definition rounds_to (z v : Z) : bool :=
  match ofInteger z with
  | Fin q => Qeq_bool q (inject_Z v)
  | _ => false
  end.

(** The readings [(s, n)] of [v] in [k] digits with [s * 10^(n-k)] next to
    [v], below or above. *)
Definition candidates (v n k : Z) : list (Z * Z) :=
  if (n <? k)%Z then []
  else
    let p := (10 ^ (n - k))%Z in
    let s := (v / p)%Z in
    map (fun s => (s, n))
        (filter (fun s => (10 ^ (k - 1) <=? s)%Z && (s <? 10 ^ k)%Z && rounds_to (s * p) v)
                [s; (s + 1)%Z]).

Definition nearer (v k : Z) (c d : Z * Z) : bool :=
  let dc := Z.abs (fst c * 10 ^ (snd c - k) - v) in
  let dd := Z.abs (fst d * 10 ^ (snd d - k) - v) in
  (dc <? dd)%Z || ((dc =? dd)%Z && Z.even (fst c)).

Definition nearest (v k : Z) (cs : list (Z * Z)) : option (Z * Z) :=
  match cs with
  | [] => None
  | c :: cs' => Some (fold_left (fun b d => if nearer v k b d then b else d) cs' c)
  end.

(** [s], [n] and [k] for [v], a number of [len] digits: [k] is tried from
    [k] on, [more] times (17 digits are enough for a binary64 value); [n] is
    [len], or [len + 1] when [v] is read as the power of ten above it. *)
Fixpoint shortest (more : nat) (v len k : Z) : option (Z * Z * Z) :=
  match more with
  | O => None
  | S more' =>
    match nearest v k (candidates v len k ++ candidates v (len + 1) k) with
    | Some (s, n) => Some (s, n, k)
    | None => shortest more' v len (k + 1)
    end
  end.

(** The digits of [s] and [n - k] zeros up to [n = 21], the exponent
    notation above. *)
Definition positiveToString (v : Z) : jsstring :=
  let len := Z.of_nat (List.length (digitsOf v)) in
  match shortest 17 v len 1 with
  | Some (s, n, k) =>
    if (n <=? 21)%Z then digitsOf s ++ repeat (chr "0") (Z.to_nat (n - k))
    else
      match digitsOf s with
      | [] => []
      | [d] => d :: str "e+" ++ digitsOf (n - 1)
      | d :: ds => d :: chr "." :: ds ++ str "e+" ++ digitsOf (n - 1)
      end
  | None => digitsOf v
  end.

(** The string a number becomes when it is added to a string, for a number
    given as an integer, as an id of the answer is: the integer is first the
    binary64 value nearest to it.  Up to 2^53 that is the integer itself,
    and the string is its decimal digits, after [-] when it is negative. *)
Definition numberToString (z : Z) : jsstring :=
  match ofInteger z with
  | NaN => str "NaN"
  | Inf negative => if negative then str "-Infinity" else str "Infinity"
  | NegZero => str "0"
  | Fin q =>
    match Qnum q with
    | Z0 => str "0"
    | Zpos v => positiveToString (Zpos v)
    | Zneg v => chr "-" :: positiveToString (Zpos v)
    end
  end.

Definition lyricURL : jsstring :=
  str "https://pyncmd.apis.imouto.in/api/pyncm?module=track&method=GetTrackLyrics&song_id=".

Section FindLyrics.

Context {host : Host} {client : Client}.

(** [search] is awaited first: what it throws ends [findLyrics]. *)
Definition findLyrics (info : Info) : completion (option Lyrics) :=
  match search info with
  | Throw thrown => Throw thrown
  | Return searchResponse =>
    let songID := id searchResponse in
    Return (CosmosAsync_get (lyricURL ++ numberToString songID))
  end.

End FindLyrics.

(** ** More vocabulary *)

(** A text without its brackets. *)
Definition unbracketed (s : jsstring) : jsstring :=
  filter (fun c => negb (isBracket c)) s.

(** The full-width colon of the credit pattern. *)
Definition wide_colon : char := 65306%N.

(** A line holds the instrumental notice when its parsed text is the notice. *)
Definition notice_in {host : Host} (lines : list jsstring) : bool :=
  existsb (fun line => strict_eq (Parsed.text (parseTimestamp line)) instrumental) lines.

(** The numbers of a tag [a<sep>b]: what [parseFloat] makes of the two first
    pieces of the tag cut at [sep]. *)
Definition tag_numbers (sep : char) (tag : jsstring) : number * number :=
  let (key, value) := first_two (split_on sep tag) in
  (parseFloat_opt key, parseFloat_opt value).

(** A client that answers every lyrics request with the same answer. *)
Definition sample_client (lyrics : option Lyrics) : Client :=
  {| CosmosAsync_get := fun _ => lyrics |}.

(** ** More concrete inputs *)

(** A synced block of two lines. *)
Definition synced_block : jsstring :=
  str "[00:01.00]first line" ++ newline ++ str "[00:05.50]second".

Definition first_line : Synced.t :=
  {| Synced.startTime := ofZ 1000; Synced.text := str "First line" |}.

Definition second_line : Synced.t :=
  {| Synced.startTime := ofZ 5500; Synced.text := str "Second" |}.

(** A karaoke block of one line. *)
Definition karaoke_block : jsstring :=
  str "[1235,300](0,508)Don't(0,1) (0,151)want(0,1)".

Definition karaoke_entry : Karaoke.t :=
  {| Karaoke.startTime := ofZ 1235;
     Karaoke.text := [ {| word := str "Don't "; time := ofZ 508 |};
                       {| word := str "want "; time := ofZ 151 |};
                       {| word := str " "; time := ofZ 1 |} ] |}.

(** A block of plain lines: a credit, a line to trim, an empty line, a line. *)
Definition plain_block : jsstring :=
  str "作词：Someone" ++ newline ++ str "  plain text " ++ newline ++ newline ++ str "more".

Definition plain_entry (line : jsstring) : Parsed.t :=
  {| Parsed.time := None; Parsed.text := Some line |}.

(** * Properties *)

(** ** The model on the source's own examples *)

Example utf16_han : str "纯音乐, 请欣赏" = [32431; 38899; 20048; 44; 32; 35831; 27427; 36175]%N.
Proof. reflexivity. Qed.

Example split_lines_crlf :
  split_lines (str "a" ++ [13; 10] ++ str "b" ++ [10] ++ [13] ++ str "c")%N
  = [str "a"; str "b"; [13%N] ++ str "c"].
Proof. reflexivity. Qed.

Example parseFloat_minutes : parseFloat (str "03") = ofZ 3.
Proof. reflexivity. Qed.

Example parseFloat_seconds : parseFloat (str "12.5") = Fin (25 # 2).
Proof. vm_compute. reflexivity. Qed.

(** 12.34 is no binary64 value: the nearest one is read. *)
Example parseFloat_rounds :
  parseFloat (str "12.34") = Fin (3473401212609495 # 281474976710656).
Proof. vm_compute. reflexivity. Qed.

Example parseFloat_overflows : parseFloat (str "1e400") = Inf false.
Proof. vm_compute. reflexivity. Qed.

Example parseInt_rounds : parseInt (str "9007199254740993") = ofZ 9007199254740992.
Proof. vm_compute. reflexivity. Qed.

(** (0 * 60 + 2.01) * 1000 is 2009.9999999999998. *)
Example startTime_rounds :
  Num.mul (Num.add (Num.mul (parseFloat (str "00")) (ofZ 60)) (parseFloat (str "02.01")))
          (ofZ 1000)
  = Fin (8840073487319039 # 4398046511104).
Proof. vm_compute. reflexivity. Qed.

Example parseFloat_rejects_tag : parseFloat (str "ar") = NaN.
Proof. reflexivity. Qed.

Example parseInt_capture : parseInt (str "151") = ofZ 151.
Proof. reflexivity. Qed.

Example containCredits_lyricist : containCredits (str "作词：Someone") = true.
Proof. vm_compute. reflexivity. Qed.

Example containCredits_mixed_by : containCredits (str "Mixed by: Someone") = true.
Proof. vm_compute. reflexivity. Qed.

Example containCredits_keyword_inside : containCredits (str "人声录音 : Someone") = true.
Proof. vm_compute. reflexivity. Qed.

Example containCredits_needs_colon : containCredits (str "Mixed by Someone") = false.
Proof. vm_compute. reflexivity. Qed.

Example containCredits_lyric_line : containCredits (str "Hello: is it me") = false.
Proof. vm_compute. reflexivity. Qed.

Example spans_two_tags : spans (str "[03:10][03:11]lyrics") = [str "[03:10]"; str "[03:11]"; str "lyrics"].
Proof. reflexivity. Qed.

Example spans_karaoke : spans (str "[1235,300]lyrics") = [str "[1235,300]"; str "lyrics"].
Proof. reflexivity. Qed.

Example spans_stray_bracket : spans (str "a]b[c") = [str "a"; str "b"; str "c"].
Proof. reflexivity. Qed.

Example split_markers_comment :
  split_markers (str "(0,508)Don't(0,1) (0,151)want(0,1)")
  = [[]; str "508"; str "Don't"; str "1"; str " "; str "151"; str "want"; str "1"; []].
Proof. reflexivity. Qed.
(** ** Strings and lists *)

Lemma string_eqb_eq (a b : jsstring) : string_eqb a b = true <-> a = b.
Proof.
  revert b; induction a as [|x a IH]; intros [|y b]; simpl.
  - split; reflexivity.
  - split; discriminate.
  - split; discriminate.
  - unfold char_eqb. rewrite andb_true_iff, N.eqb_eq, IH. split.
    + intros [-> ->]. reflexivity.
    + intros H. injection H as -> ->. split; reflexivity.
Qed.

Lemma string_eqb_refl (a : jsstring) : string_eqb a a = true.
Proof. now apply string_eqb_eq. Qed.

Lemma string_eqb_neq (a b : jsstring) : string_eqb a b = false <-> a <> b.
Proof.
  destruct (string_eqb a b) eqn:E; split; try congruence.
  - apply string_eqb_eq in E. intros H. now elim H.
  - intros _ H. apply string_eqb_eq in H. congruence.
Qed.

Lemma compact_all_none {A B} (f : A -> option B) (l : list A) :
  (forall x, In x l -> f x = None) -> compact (map f l) = [].
Proof.
  induction l as [|x l IH]; simpl; intros H; [reflexivity|].
  rewrite (H x) by now left. apply IH. intros y Hy. apply H. now right.
Qed.

(** A callback that only ever raises the flag leaves the mapped array of
    [map], and raises the flag when one line triggers it. *)
Lemma map_flag_raise {A B} (g : A -> B) (trigger : A -> bool) (l : list A) (flag : bool) :
  map_flag (fun x fl => (g x, if trigger x then true else fl)) l flag
  = (map g l, flag || existsb trigger l).
Proof.
  revert flag; induction l as [|x l IH]; intros flag; simpl.
  - now rewrite orb_false_r.
  - rewrite IH. destruct (trigger x), flag; reflexivity.
Qed.

(** ** The matcher *)

Section Matcher.

Context {host : Host}.

Lemma accepted_rule (info : Info) (song : Song) :
  accepted info song = true <-> acceptance_rule info song.
Proof.
  unfold accepted, acceptance_rule, actualAlbumName, expectedAlbumName.
  rewrite orb_true_iff, string_eqb_eq, Z.ltb_lt. reflexivity.
Qed.

Lemma accepted_not_rule (info : Info) (song : Song) :
  accepted info song = false <-> ~ acceptance_rule info song.
Proof.
  rewrite <- accepted_rule. destruct (accepted info song); split; congruence.
Qed.

Lemma best_match_first (info : Info) (before after : list Song) (song : Song) :
  (forall s, In s before -> accepted info s = false) ->
  accepted info song = true ->
  best_match info (before ++ song :: after) = Return song.
Proof.
  induction before as [|s before IH]; simpl; intros Hb Hs.
  - now rewrite Hs.
  - rewrite (Hb s) by now left. apply IH; [|assumption].
    intros s' Hs'. apply Hb. now right.
Qed.

Lemma best_match_return (info : Info) (items : list Song) (song : Song) :
  best_match info items = Return song ->
  exists before after,
    items = before ++ song :: after
    /\ accepted info song = true
    /\ forall s, In s before -> accepted info s = false.
Proof.
  induction items as [|s items IH]; simpl; [discriminate|].
  destruct (accepted info s) eqn:E.
  - intros H. injection H as <-. exists [], items. now repeat split.
  - intros H. destruct (IH H) as (before & after & -> & Hacc & Hb).
    exists (s :: before), after. repeat split; [assumption|].
    intros s' [<-|Hs']; [assumption | now apply Hb].
Qed.

Lemma best_match_throw (info : Info) (items : list Song) :
  best_match info items = Throw NotFoundError
  <-> forall s, In s items -> accepted info s = false.
Proof.
  induction items as [|s items IH]; simpl.
  - split; [intros _ s [] | reflexivity].
  - destruct (accepted info s) eqn:E.
    + split; [discriminate|]. intros H. specialize (H s (or_introl eq_refl)). congruence.
    + rewrite IH. split.
      * intros H s' [<-|Hs']; [assumption | now apply H].
      * intros H s' Hs'. apply H. now right.
Qed.

Lemma best_match_total (info : Info) (items : list Song) :
  best_match info items = Throw NotFoundError
  \/ exists song, In song items /\ best_match info items = Return song.
Proof.
  induction items as [|s items [IH|(song & Hin & IH)]]; simpl.
  - now left.
  - destruct (accepted info s); [right; exists s; split; [now left | reflexivity] | now left].
  - right. destruct (accepted info s).
    + exists s. split; [now left | reflexivity].
    + exists song. split; [now right | assumption].
Qed.

(** C1. Whatever sequence the catalogue answers with, [search] returns a
    song exactly when that song is the first one of the sequence, in the
    order received, that satisfies the acceptance rule (album names equal
    after normalization and optional simplification of the query's, or
    durations less than 1000 ms apart): every song before it fails the
    rule, and songs after it are not looked at, even when they satisfy it. *)
Theorem search_returns_first_accepted (info : Info) (song : Song) :
  search info = Return song
  <-> exists before after,
        CosmosAsync_get_songs (finalURL info) = before ++ song :: after
        /\ acceptance_rule info song
        /\ forall s, In s before -> ~ acceptance_rule info s.
Proof.
  unfold search. split.
  - intros H. apply best_match_return in H as (before & after & Hitems & Hacc & Hb).
    exists before, after. split; [assumption|]. split.
    + now apply accepted_rule.
    + intros s Hs. apply accepted_not_rule. now apply Hb.
  - intros (before & after & -> & Hacc & Hb).
    apply best_match_first.
    + intros s Hs. apply accepted_not_rule. now apply Hb.
    + now apply accepted_rule.
Qed.

(** C2. [search] throws "Cannot find track" (the NotFoundError) exactly
    when no song of the answered sequence satisfies the acceptance rule, the
    empty sequence included; in every other case it returns a song of the
    sequence. *)
Theorem search_not_found (info : Info) :
  (CosmosAsync_get_songs (finalURL info) = [] -> search info = Throw NotFoundError)
  /\ (search info = Throw NotFoundError
      <-> forall s, In s (CosmosAsync_get_songs (finalURL info)) -> ~ acceptance_rule info s)
  /\ ((exists s, In s (CosmosAsync_get_songs (finalURL info)) /\ acceptance_rule info s)
      <-> exists song,
            In song (CosmosAsync_get_songs (finalURL info)) /\ search info = Return song).
Proof.
  unfold search. split; [|split].
  - intros ->. reflexivity.
  - rewrite best_match_throw. split; intros H s Hs.
    + apply accepted_not_rule. now apply H.
    + apply accepted_not_rule. now apply H.
  - split.
    + intros (s & Hs & Hrule).
      destruct (best_match_total info (CosmosAsync_get_songs (finalURL info)))
        as [Hthrow|Hret]; [|assumption].
      rewrite best_match_throw in Hthrow. apply accepted_rule in Hrule.
      rewrite (Hthrow s Hs) in Hrule. discriminate.
    + intros (song & Hin & Hret).
      apply best_match_return in Hret as (before & after & _ & Hacc & _).
      exists song. split; [assumption | now apply accepted_rule].
Qed.

End Matcher.

(** ** Numbers *)

Section Rounding.

Local Open Scope Z_scope.

Lemma floor_log2_integer (a : Z) : 0 < a -> floor_log2 a 1 = Z.log2 a.
Proof.
  intros Ha. unfold floor_log2. change (Z.log2 1) with 0. rewrite Z.sub_0_r.
  pose proof (Z.log2_nonneg a) as Hn. pose proof (Z.log2_spec a Ha) as [Hl _].
  replace (0 <=? Z.log2 a) with true by (symmetry; apply Z.leb_le; lia).
  replace (1 * 2 ^ Z.log2 a <=? a) with true by (symmetry; apply Z.leb_le; lia).
  reflexivity.
Qed.

Lemma nearest_even_multiple (n d : Z) : 0 < d -> nearest_even (n * d) d = n.
Proof.
  intros Hd. unfold nearest_even. rewrite Z.div_mul by lia. rewrite Z.mod_mul by lia.
  replace (2 * 0 <? d) with true by (symmetry; apply Z.ltb_lt; lia). reflexivity.
Qed.

Lemma nearest_even_one (n : Z) : nearest_even n 1 = n.
Proof.
  rewrite <- (Z.mul_1_r n) at 1. apply nearest_even_multiple. lia.
Qed.

Lemma Qred_scaled (a d : Z) : 0 < d -> Qred (Qmake (a * d) (Z.to_pos d)) = inject_Z a.
Proof.
  intros Hd. transitivity (Qred (inject_Z a)).
  - apply Qred_complete. unfold Qeq, inject_Z. simpl. rewrite Z2Pos.id by lia. lia.
  - apply Qcanon.Qred_identity. simpl. apply Z.gcd_1_r.
Qed.

Lemma round_magnitude_safe (a : Z) :
  0 < a <= 2 ^ 53 -> round_magnitude a 1 = Some (inject_Z a).
Proof.
  intros [Ha Hu]. unfold round_magnitude. rewrite (@floor_log2_integer a Ha).
  pose proof (Z.log2_nonneg a) as Hn. pose proof (Z.log2_spec a Ha) as [Hl Hh].
  rewrite Z.max_l by lia.
  assert (He : Z.log2 a <= 53).
  { destruct (Z.le_gt_cases (Z.log2 a) 53) as [H|H]; [assumption|].
    assert (2 ^ 54 <= 2 ^ Z.log2 a) by (apply Z.pow_le_mono_r; lia).
    assert (2 ^ 53 < 2 ^ 54) by (apply Z.pow_lt_mono_r; lia). lia. }
  destruct (Z.leb_spec 0 (Z.log2 a - 52)) as [Hs|Hs].
  - assert (Hcase : Z.log2 a = 52 \/ Z.log2 a = 53) by lia.
    destruct Hcase as [E|E]; rewrite E.
    + change (52 - 52) with 0. change (2 ^ 0) with 1. rewrite !Z.mul_1_r.
      rewrite nearest_even_one.
      replace (2 ^ 1024 <=? a) with false; [reflexivity|].
      symmetry. apply Z.leb_gt.
      assert (2 ^ 53 < 2 ^ 1024) by (apply Z.pow_lt_mono_r; lia). lia.
    + rewrite E in Hl. assert (Ea : a = 2 ^ 53) by lia. rewrite Ea. reflexivity.
  - rewrite nearest_even_one.
    rewrite Qred_scaled; [reflexivity|]. apply Z.pow_pos_nonneg; lia.
Qed.

(** An integer up to 2^53 in absolute value is a binary64 value: rounding
    leaves it as it is. *)
Lemma ofInteger_safe (z : Z) : Z.abs z <= 2 ^ 53 -> ofInteger z = ofZ z.
Proof.
  intros H. unfold ofInteger, ofZ, round64. simpl Qnum. simpl Qden.
  destruct z as [|a|a].
  - reflexivity.
  - rewrite round_magnitude_safe by (simpl in H; lia). reflexivity.
  - rewrite round_magnitude_safe by (simpl in H; lia). reflexivity.
Qed.


Lemma signed_integer (z : Z) : signed false (inject_Z z) = ofInteger z.
Proof.
  unfold signed, ofInteger. simpl Qnum.
  destruct (Z.eqb_spec z 0) as [->|_]; reflexivity.
Qed.

End Rounding.

(** Above 2^53 an integer may not be a binary64 value: the nearest one is
    taken, the even one of two. *)
Example ofInteger_rounds :
  ofInteger 9007199254740993 = ofZ 9007199254740992.
Proof. vm_compute. reflexivity. Qed.

(** ** The derivatives decide the language *)

Section Derivatives.

Variable i : bool.

Lemma matches_void (s : jsstring) : ~ matches i Void s.
Proof. intros H. inversion H. Qed.

Lemma matches_alt (r1 r2 : regex) (s : jsstring) :
  matches i (alt r1 r2) s <-> matches i r1 s \/ matches i r2 s.
Proof.
  assert (H : matches i (Alt r1 r2) s <-> matches i r1 s \/ matches i r2 s).
  { split.
    - intros H. inversion H; subst; auto.
    - intros [H|H]; [now apply m_alt_l | now apply m_alt_r]. }
  destruct r1, r2; simpl; try exact H; split; auto;
    try (intros [Hm|Hm]; auto; now apply matches_void in Hm).
Qed.

Lemma matches_Cat (r1 r2 : regex) (s : jsstring) :
  matches i (Cat r1 r2) s
  <-> exists s1 s2, s = s1 ++ s2 /\ matches i r1 s1 /\ matches i r2 s2.
Proof.
  split.
  - intros H. inversion H; subst. now exists s1, s2.
  - intros (s1 & s2 & -> & H1 & H2). now apply m_cat.
Qed.

Lemma matches_cat (r1 r2 : regex) (s : jsstring) :
  matches i (cat r1 r2) s
  <-> exists s1 s2, s = s1 ++ s2 /\ matches i r1 s1 /\ matches i r2 s2.
Proof.
  assert (Hv1 : forall r, (exists s1 s2, s = s1 ++ s2 /\ matches i Void s1 /\ matches i r s2)
                          -> matches i Void s).
  { intros r (s1 & s2 & _ & H & _). now apply matches_void in H. }
  assert (Hv2 : forall r, (exists s1 s2, s = s1 ++ s2 /\ matches i r s1 /\ matches i Void s2)
                          -> matches i Void s).
  { intros r (s1 & s2 & _ & _ & H). now apply matches_void in H. }
  assert (He : forall r, matches i r s
                         <-> exists s1 s2, s = s1 ++ s2 /\ matches i Eps s1 /\ matches i r s2).
  { intros r. split.
    - intros H. exists [], s. repeat split; [constructor | assumption].
    - intros (s1 & s2 & -> & H1 & H2). inversion H1; subst. assumption. }
  destruct r1, r2; simpl;
    try apply matches_Cat; try apply He;
    split; try (now intros H; apply matches_void in H);
    try apply Hv1; try apply Hv2.
Qed.

Lemma nullable_matches (r : regex) : nullable r = true <-> matches i r [].
Proof.
  induction r; simpl.
  - split; [discriminate | intros H; now apply matches_void in H].
  - split; [constructor | reflexivity].
  - split; [discriminate | intros H; inversion H].
  - split; [discriminate | intros H; inversion H].
  - split; [discriminate | intros H; inversion H].
  - rewrite orb_true_iff, IHr1, IHr2. split.
    + intros [H|H]; [now apply m_alt_l | now apply m_alt_r].
    + intros H. inversion H; subst; auto.
  - rewrite andb_true_iff, IHr1, IHr2, matches_Cat. split.
    + intros [H1 H2]. now exists [], [].
    + intros (s1 & s2 & E & H1 & H2). symmetry in E.
      apply app_eq_nil in E as [-> ->]. now split.
  - split; [constructor | reflexivity].
  - split; [constructor | reflexivity].
Qed.

(** A non-empty word of [r*] starts with a non-empty word of [r]. *)
Lemma matches_star_cons (r : regex) (c : char) (s : jsstring) :
  matches i (Star r) (c :: s) ->
  exists s1 s2, s = s1 ++ s2 /\ matches i r (c :: s1) /\ matches i (Star r) s2.
Proof.
  intros H. remember (Star r) as r' eqn:Er. remember (c :: s) as w eqn:Ew.
  revert c s Ew. induction H; try discriminate; intros c s Ew.
  injection Er as ->.
  destruct s1 as [|c1 s1].
  - simpl in Ew. now apply IHmatches2.
  - simpl in Ew. injection Ew as -> <-. now exists s1, s2.
Qed.

Lemma deriv_matches (r : regex) (c : char) (s : jsstring) :
  matches i (deriv i c r) s <-> matches i r (c :: s).
Proof.
  revert s; induction r; intros s; simpl.
  - split; intros H; inversion H.
  - split; intros H; inversion H.
  - destruct (char_matches i c0 c) eqn:E; split; intros H; inversion H; subst.
    + now constructor.
    + constructor.
    + congruence.
  - destruct (isLineTerminator c) eqn:E; split; intros H; inversion H; subst.
    + congruence.
    + now constructor.
    + constructor.
  - destruct (isWhiteSpace c) eqn:E; split; intros H; inversion H; subst.
    + now constructor.
    + constructor.
    + congruence.
  - rewrite matches_alt, IHr1, IHr2. split.
    + intros [H|H]; [now apply m_alt_l | now apply m_alt_r].
    + intros H. inversion H; subst; auto.
  - rewrite matches_alt, matches_cat, matches_Cat. split.
    + intros [(s1 & s2 & -> & H1 & H2)|H].
      * exists (c :: s1), s2. repeat split; [now apply IHr1 | assumption].
      * destruct (nullable r1) eqn:E; [|now apply matches_void in H].
        exists [], (c :: s). repeat split; [now apply nullable_matches | now apply IHr2].
    + intros (s1 & s2 & E & H1 & H2). destruct s1 as [|c1 s1].
      * right. simpl in E. subst s2.
        apply nullable_matches in H1. rewrite H1. now apply IHr2.
      * left. simpl in E. injection E as <- ->.
        exists s1, s2. repeat split; [now apply IHr1 | assumption].
  - rewrite IHr. split.
    + intros H. now apply m_opt_some.
    + intros H. inversion H; subst. assumption.
  - rewrite matches_cat. split.
    + intros (s1 & s2 & -> & H1 & H2).
      apply (m_star_cons (r:=r) (s1:=c :: s1) (s2:=s2)); [now apply IHr | assumption].
    + intros H. apply matches_star_cons in H as (s1 & s2 & -> & H1 & H2).
      exists s1, s2. repeat split; [now apply IHr | assumption].
Qed.

(** [test] on an anchored pattern: a prefix of the text is a word of it. *)
Lemma test_anchored_matches (r : regex) (s : jsstring) :
  test_anchored i r s = true
  <-> exists prefix rest, s = prefix ++ rest /\ matches i r prefix.
Proof.
  revert r; induction s as [|c s IH]; intros r; simpl.
  - rewrite orb_false_r, nullable_matches. split.
    + intros H. now exists [], [].
    + intros (p & q & E & H). symmetry in E. apply app_eq_nil in E as [-> _]. assumption.
  - rewrite orb_true_iff, nullable_matches, IH. split.
    + intros [H|(p & q & -> & H)].
      * now exists [], (c :: s).
      * exists (c :: p), q. split; [reflexivity | now apply deriv_matches].
    + intros (p & q & E & H). destruct p as [|c' p].
      * now left.
      * right. simpl in E. injection E as <- ->.
        exists p, q. split; [reflexivity | now apply deriv_matches].
Qed.

End Derivatives.

(** X2. [containCredits(text)] holds exactly when a prefix of the text is a
    word of the pattern, letters compared without their case. *)
Lemma containCredits_matches (text : jsstring) :
  containCredits text = true
  <-> exists prefix rest, text = prefix ++ rest /\ matches true creditInfoRegExp prefix.
Proof. apply test_anchored_matches. Qed.

(** ** The extractors *)

Section Extractors.

Context {host : Host}.

(** What the last test of an extractor lets through. *)
Lemma null_or_nonempty {A} (l : list A) (flag : bool) :
  (if (List.length l =? 0)%nat || flag then None else Some l) <> Some [].
Proof. destruct l, flag; simpl; congruence. Qed.

(** [getSynced] without its flag: the flag ends raised exactly when a line
    has the notice for text. *)
Lemma getSynced_eq (response : option Lyrics) (lyricStr : jsstring) :
  lyric_of lrc response = Some lyricStr ->
  getSynced response =
    if isEmpty lyricStr then None
    else
      let lyrics :=
        compact (map (fun line => synced_line (parseTimestamp line)) (lines_of lyricStr)) in
      if (List.length lyrics =? 0)%nat
         || existsb (fun line => strict_eq (Parsed.text (parseTimestamp line)) instrumental)
              (lines_of lyricStr)
      then None else Some lyrics.
Proof.
  intros H. unfold getSynced. rewrite H. destruct (isEmpty lyricStr); [reflexivity|].
  rewrite (map_flag_raise (fun line => synced_line (parseTimestamp line))
             (fun line => strict_eq (Parsed.text (parseTimestamp line)) instrumental)).
  reflexivity.
Qed.

Lemma getUnsynced_eq (response : option Lyrics) (lyricStr : jsstring) :
  lyric_of lrc response = Some lyricStr ->
  getUnsynced response =
    if isEmpty lyricStr then None
    else
      let lyrics :=
        compact (map (fun line =>
                        let parsed := parseTimestamp line in
                        if falsy (Parsed.text parsed) || containCredits_opt (Parsed.text parsed)
                        then None else Some parsed)
                     (lines_of lyricStr)) in
      if (List.length lyrics =? 0)%nat
         || existsb (fun line => strict_eq (Parsed.text (parseTimestamp line)) instrumental)
              (lines_of lyricStr)
      then None else Some lyrics.
Proof.
  intros H. unfold getUnsynced. rewrite H. destruct (isEmpty lyricStr); [reflexivity|].
  rewrite (map_flag_raise
             (fun line =>
                let parsed := parseTimestamp line in
                if falsy (Parsed.text parsed) || containCredits_opt (Parsed.text parsed)
                then None else Some parsed)
             (fun line => strict_eq (Parsed.text (parseTimestamp line)) instrumental)).
  reflexivity.
Qed.

(** C3. When one line of the [lrc] block has the instrumental notice for
    parsed text, [getSynced] and [getUnsynced] both return [null], whatever
    the other lines of the block parse into. *)
Theorem instrumental_notice_gives_null
    (response : option Lyrics) (lyricStr line : jsstring) :
  lyric_of lrc response = Some lyricStr ->
  In line (lines_of lyricStr) ->
  Parsed.text (parseTimestamp line) = Some instrumental ->
  getSynced response = None /\ getUnsynced response = None.
Proof.
  intros Hblock Hline Htext.
  assert (Hflag : existsb (fun l => strict_eq (Parsed.text (parseTimestamp l)) instrumental)
                    (lines_of lyricStr) = true).
  { apply existsb_exists. exists line. split; [assumption|].
    rewrite Htext. unfold strict_eq. apply string_eqb_refl. }
  split.
  - rewrite (getSynced_eq _ Hblock). destruct (isEmpty lyricStr); [reflexivity|].
    cbv zeta. rewrite Hflag, orb_true_r. reflexivity.
  - rewrite (getUnsynced_eq _ Hblock). destruct (isEmpty lyricStr); [reflexivity|].
    cbv zeta. rewrite Hflag, orb_true_r. reflexivity.
Qed.

(** The empty line is plain text, and empty text. *)
Lemma parseTimestamp_empty :
  parseTimestamp [] = {| Parsed.time := None; Parsed.text := Some [] |}.
Proof. reflexivity. Qed.

(** What a line of a block of credits parses into. *)
Lemma credits_only_line (lyricStr line : jsstring) :
  credits_only lyricStr = true ->
  In line (lines_of lyricStr) ->
  line = [] \/ exists text, Parsed.text (parseTimestamp line) = Some text
                            /\ containCredits text = true.
Proof.
  unfold credits_only. intros Hall Hin.
  rewrite forallb_forall in Hall. specialize (Hall line Hin).
  apply orb_true_iff in Hall as [He|Hc].
  - left. now destruct line.
  - right. destruct (Parsed.text (parseTimestamp line)) as [text|]; [|discriminate].
    now exists text.
Qed.

Lemma karaoke_line_credits (line text : jsstring) :
  Parsed.text (parseTimestamp line) = Some text ->
  containCredits text = true ->
  karaoke_line line = None.
Proof.
  intros Ht Hc. unfold karaoke_line. rewrite Ht.
  destruct (falsy (Parsed.time (parseTimestamp line)) || falsy (Some text)); [reflexivity|].
  destruct (first_two _) as [key value]. rewrite Hc.
  now rewrite andb_false_r.
Qed.

Lemma synced_line_credits (p : Parsed.t) (text : jsstring) :
  Parsed.text p = Some text ->
  containCredits text = true ->
  synced_line p = None.
Proof.
  intros Ht Hc. unfold synced_line. rewrite Ht.
  destruct (falsy (Parsed.time p) || falsy (Some text)); [reflexivity|].
  destruct (first_two _) as [key value]. rewrite Hc.
  now rewrite andb_false_r.
Qed.

(** C6. In a block of credits (every line empty or with a text the credit
    filter matches), no line survives: each extractor that reads the block
    returns [null] -- [getKaraoke] for [klyric], [getSynced] and
    [getUnsynced] for [lrc], [getTranslation] for [tlyric]. *)
Theorem credits_block_gives_null (response : option Lyrics) (lyricStr : jsstring) :
  credits_only lyricStr = true ->
  (lyric_of klyric response = Some lyricStr -> getKaraoke response = None)
  /\ (lyric_of lrc response = Some lyricStr ->
      getSynced response = None /\ getUnsynced response = None)
  /\ (lyric_of tlyric response = Some lyricStr -> getTranslation response = None).
Proof.
  intros Hcredits.
  assert (Hk : compact (map karaoke_line (lines_of lyricStr)) = []).
  { apply compact_all_none. intros line Hin.
    destruct (credits_only_line _ _ Hcredits Hin) as [->|(text & Ht & Hc)].
    - reflexivity.
    - now apply karaoke_line_credits with text. }
  assert (Hs : compact (map (fun line => synced_line (parseTimestamp line))
                          (lines_of lyricStr)) = []).
  { apply compact_all_none. intros line Hin.
    destruct (credits_only_line _ _ Hcredits Hin) as [->|(text & Ht & Hc)].
    - reflexivity.
    - now apply synced_line_credits with text. }
  assert (Hu : compact (map (fun line =>
                               let parsed := parseTimestamp line in
                               if falsy (Parsed.text parsed)
                                  || containCredits_opt (Parsed.text parsed)
                               then None else Some parsed)
                          (lines_of lyricStr)) = []).
  { apply compact_all_none. intros line Hin. cbv zeta.
    destruct (credits_only_line _ _ Hcredits Hin) as [->|(text & Ht & Hc)].
    - reflexivity.
    - rewrite Ht. simpl. rewrite Hc. now rewrite orb_true_r. }
  split; [|split].
  - intros Hblock. unfold getKaraoke. rewrite Hblock, Hk.
    now destruct (isEmpty lyricStr).
  - intros Hblock. split.
    + rewrite (getSynced_eq _ Hblock). cbv zeta. rewrite Hs.
      now destruct (isEmpty lyricStr).
    + rewrite (getUnsynced_eq _ Hblock). cbv zeta in Hu |- *. rewrite Hu.
      now destruct (isEmpty lyricStr).
  - intros Hblock. unfold getTranslation. rewrite Hblock, Hs.
    now destruct (isEmpty lyricStr).
Qed.

(** C7. No extractor returns an empty array: each returns [null] or an
    array with a line in it, whatever the answer it is given. *)
Theorem extractors_never_empty (response : option Lyrics) :
  getKaraoke response <> Some []
  /\ getSynced response <> Some []
  /\ getUnsynced response <> Some []
  /\ getTranslation response <> Some [].
Proof.
  repeat split.
  - unfold getKaraoke. destruct (lyric_of klyric response) as [s|]; [|discriminate].
    destruct (isEmpty s); [discriminate|].
    rewrite <- (orb_false_r (_ =? _)%nat). apply null_or_nonempty.
  - destruct (lyric_of lrc response) as [s|] eqn:E.
    + rewrite (getSynced_eq _ E). destruct (isEmpty s); [discriminate|].
      apply null_or_nonempty.
    + unfold getSynced. rewrite E. discriminate.
  - destruct (lyric_of lrc response) as [s|] eqn:E.
    + rewrite (getUnsynced_eq _ E). destruct (isEmpty s); [discriminate|].
      apply null_or_nonempty.
    + unfold getUnsynced. rewrite E. discriminate.
  - unfold getTranslation. destruct (lyric_of tlyric response) as [s|]; [|discriminate].
    destruct (isEmpty s); [discriminate|].
    rewrite <- (orb_false_r (_ =? _)%nat). apply null_or_nonempty.
Qed.

End Extractors.

(** ** Spans of a line *)

Lemma span_eq (p : char -> bool) (s a b : jsstring) :
  span p s = (a, b) ->
  s = a ++ b /\ forallb p a = true /\ match b with [] => True | c :: _ => p c = false end.
Proof.
  revert a b; induction s as [|c s IH]; simpl; intros a b H.
  - injection H as <- <-. now repeat split.
  - destruct (p c) eqn:Ec.
    + destruct (span p s) as [a' b'] eqn:E. injection H as <- <-.
      destruct (IH _ _ eq_refl) as (-> & Ha & Hb).
      repeat split; [|assumption]. simpl. now rewrite Ec.
    + injection H as <- <-. now repeat split.
Qed.

Lemma bracket_body_eq (s body rest : jsstring) :
  bracket_body s = Some (body, rest) ->
  s = body ++ rbracket :: rest /\ ~ In rbracket body.
Proof.
  revert body; induction s as [|c s IH]; simpl; intros body H; [discriminate|].
  destruct (char_eqb c rbracket) eqn:Ec.
  - injection H as <- <-. apply N.eqb_eq in Ec. subst c. split; [reflexivity | intros []].
  - destruct (isLineTerminator c); [discriminate|].
    destruct (bracket_body s) as [[body' rest']|]; [|discriminate].
    injection H as <- <-. destruct (IH _ eq_refl) as (-> & Hn).
    split; [reflexivity|]. intros [Heq|Hin]; [|now apply Hn].
    unfold char_eqb in Ec. rewrite Heq, N.eqb_refl in Ec. discriminate.
Qed.

Lemma match_spans_shape (fuel : nat) (s t : jsstring) :
  In t (match_spans fuel s) -> tag_shape t \/ text_shape t.
Proof.
  revert s; induction fuel as [|fuel IH]; simpl; intros s; [intros []|].
  destruct s as [|c s]; [intros []|].
  destruct (char_eqb c lbracket) eqn:El.
  - apply N.eqb_eq in El. subst c.
    destruct (bracket_body s) as [[body rest]|] eqn:Eb; [|apply IH].
    intros [<-|Hin]; [|now apply IH with rest].
    left. exists body. split; [reflexivity|]. now apply bracket_body_eq in Eb.
  - destruct (char_eqb c rbracket) eqn:Er; [apply IH|].
    destruct (span (fun d => negb (isBracket d)) s) as [run rest] eqn:Es.
    intros [<-|Hin]; [|now apply IH with rest].
    right. split; [discriminate|]. simpl.
    apply span_eq in Es as (_ & Hrun & _). rewrite Hrun.
    unfold isBracket. now rewrite El, Er.
Qed.

Lemma tag_shape_ends (t : jsstring) :
  tag_shape t -> endsWith t rbracket = true /\ isBracketed t = true.
Proof.
  intros (body & -> & _). split; [|reflexivity].
  unfold endsWith. simpl. rewrite rev_app_distr. reflexivity.
Qed.

Lemma text_shape_ends (t : jsstring) :
  text_shape t -> endsWith t rbracket = false /\ isBracketed t = false.
Proof.
  intros (Hne & Hall). rewrite forallb_forall in Hall. split.
  - unfold endsWith. destruct (rev t) as [|d r] eqn:E; [reflexivity|].
    assert (Hd : In d t) by (apply in_rev; rewrite E; now left).
    apply Hall in Hd. unfold isBracket in Hd.
    apply negb_true_iff, orb_false_iff in Hd. tauto.
  - destruct t as [|c t]; [reflexivity|]. simpl.
    specialize (Hall c (or_introl eq_refl)). unfold isBracket in Hall.
    apply negb_true_iff, orb_false_iff in Hall. tauto.
Qed.

(** On the spans of a line, ending with ["]"] (the test of line 101) and
    being a bracketed span are one thing. *)
Lemma spans_endsWith (line t : jsstring) :
  In t (spans line) -> endsWith t rbracket = isBracketed t.
Proof.
  intros H. apply match_spans_shape in H as [H|H].
  - apply tag_shape_ends in H as [-> ->]. reflexivity.
  - apply text_shape_ends in H as [-> ->]. reflexivity.
Qed.

Lemma replace_first_absent (c : char) (body : jsstring) :
  ~ In c body -> replace_first c (body ++ [c]) = body.
Proof.
  induction body as [|d body IH]; simpl; intros H.
  - unfold char_eqb. now rewrite N.eqb_refl.
  - destruct (char_eqb d c) eqn:E.
    + apply N.eqb_eq in E. elim H. now left.
    + f_equal. apply IH. intros Hin. apply H. now right.
Qed.

Lemma match_spans_S (fuel : nat) (c : char) (s : jsstring) :
  match_spans (S fuel) (c :: s)
  = if char_eqb c lbracket then
      match bracket_body s with
      | Some (body, rest) => (c :: body ++ [rbracket]) :: match_spans fuel rest
      | None => match_spans fuel s
      end
    else if char_eqb c rbracket then match_spans fuel s
    else let (run, rest) := span (fun d => negb (isBracket d)) s in
         (c :: run) :: match_spans fuel rest.
Proof. reflexivity. Qed.

(** Fuel beyond the length of the line changes nothing: no span is lost to
    the fuel. *)
Lemma match_spans_fuel_enough (n m : nat) (s : jsstring) :
  (List.length s <= n)%nat -> (List.length s <= m)%nat ->
  match_spans n s = match_spans m s.
Proof.
  revert m s; induction n as [|n IH]; intros m s Hn Hm.
  - destruct s; [|simpl in Hn; lia]. now destruct m.
  - destruct m as [|m].
    + destruct s; [|simpl in Hm; lia]. reflexivity.
    + destruct s as [|c s]; [reflexivity|]. simpl in Hn, Hm.
      rewrite !match_spans_S.
      destruct (char_eqb c lbracket).
      * destruct (bracket_body s) as [[body rest]|] eqn:E; [|apply IH; lia].
        apply bracket_body_eq in E as (-> & _). rewrite length_app in Hn, Hm.
        simpl in Hn, Hm. f_equal. apply IH; lia.
      * destruct (char_eqb c rbracket); [apply IH; lia|].
        destruct (span (fun d => negb (isBracket d)) s) as [run rest] eqn:E.
        apply span_eq in E as (-> & _). rewrite length_app in Hn, Hm.
        f_equal. apply IH; lia.
Qed.

(** The equation of [spans]: what the search does at the head of a line. *)
Lemma spans_cons (c : char) (s : jsstring) :
  spans (c :: s)
  = if char_eqb c lbracket then
      match bracket_body s with
      | Some (body, rest) => (c :: body ++ [rbracket]) :: spans rest
      | None => spans s
      end
    else if char_eqb c rbracket then spans s
    else let (run, rest) := span (fun d => negb (isBracket d)) s in
         (c :: run) :: spans rest.
Proof.
  unfold spans. simpl List.length. rewrite match_spans_S.
  destruct (char_eqb c lbracket).
  - destruct (bracket_body s) as [[body rest]|] eqn:E; [|reflexivity].
    apply bracket_body_eq in E as (-> & _). f_equal.
    apply match_spans_fuel_enough; rewrite ?length_app; simpl; lia.
  - destruct (char_eqb c rbracket); [reflexivity|].
    destruct (span (fun d => negb (isBracket d)) s) as [run rest] eqn:E.
    apply span_eq in E as (-> & _). f_equal.
    apply match_spans_fuel_enough; rewrite ?length_app; simpl; lia.
Qed.

(** The two [replace] calls of line 109 strip the brackets of a tag. *)
Lemma strip_tag (t : jsstring) :
  tag_shape t -> replace_first rbracket (replace_first lbracket t) = content t.
Proof.
  intros (body & -> & Hn). unfold content. simpl tl.
  rewrite removelast_last. simpl replace_first at 2.
  now apply replace_first_absent.
Qed.

Lemma findIndex_ext {A} (p q : A -> bool) (l : list A) :
  (forall x, In x l -> p x = q x) -> findIndex p l = findIndex q l.
Proof.
  induction l as [|x l IH]; simpl; intros H; [reflexivity|].
  rewrite (H x) by now left. rewrite IH; [reflexivity|].
  intros y Hy. apply H. now right.
Qed.

Lemma findIndex_find {A} (p : A -> bool) (l : list A) (x d : A) :
  find p l = Some x -> exists i, findIndex p l = Some i /\ nth i l d = x.
Proof.
  induction l as [|y l IH]; simpl; [discriminate|].
  destruct (p y).
  - intros H. injection H as <-. now exists O.
  - intros H. destruct (IH H) as (i & -> & Hi). now exists (S i).
Qed.

Lemma findIndex_here {A} (p : A -> bool) (x : A) (l : list A) :
  p x = true -> findIndex p (x :: l) = Some O.
Proof. intros H. simpl. now rewrite H. Qed.

Lemma findIndex_skip {A} (p : A -> bool) (x : A) (l : list A) (i : nat) :
  p x = false -> findIndex p l = Some i -> findIndex p (x :: l) = Some (S i).
Proof. intros H Hi. simpl. now rewrite H, Hi. Qed.

(** ** parseTimestamp *)

Section ParseTimestamp.

Context {host : Host}.

(** C9, as the code has it.  Take a line whose spans hold a bracketed span
    [tag], the first of them, with at most one non-bracketed span before it,
    and let [t] be the first non-bracketed span of the line.  Then
    [parseTimestamp] returns the content of [tag] (the span without its
    brackets) for time, and [t], normalized and capitalized, for text. *)
Theorem parseTimestamp_time_and_text
    (line : jsstring) (before : list jsstring) (tag : jsstring)
    (after : list jsstring) (t : jsstring) :
  spans line = before ++ tag :: after ->
  isBracketed tag = true ->
  forallb (fun s => negb (isBracketed s)) before = true ->
  (List.length before <= 1)%nat ->
  find (fun s => negb (isBracketed s)) (spans line) = Some t ->
  parseTimestamp line
  = {| Parsed.time := Some (content tag);
       Parsed.text := Some (capitalize (normalize t (Some false))) |}.
Proof.
  intros Hspans Htag Hbefore Hlen Hfind.
  assert (Hshape : tag_shape tag).
  { assert (Hin : In tag (spans line)).
    { rewrite Hspans. apply in_or_app. right. now left. }
    apply match_spans_shape in Hin as [H|H]; [assumption|].
    apply text_shape_ends in H as [_ H]. congruence. }
  assert (Hidx : findIndex (fun slice => negb (endsWith slice rbracket)) (spans line)
                 = findIndex (fun s => negb (isBracketed s)) (spans line)).
  { apply findIndex_ext. intros x Hx. now rewrite (spans_endsWith line). }
  unfold parseTimestamp. rewrite Hidx. clear Hidx. rewrite Hspans in *.
  destruct before as [|p before].
  - (* the tag stands first: the text is found further on *)
    simpl app in *. simpl in Hfind. rewrite Htag in Hfind. simpl in Hfind.
    destruct (@findIndex_find jsstring _ _ _ (@nil char) Hfind) as (i & Hi & Hnth).
    rewrite (@findIndex_skip _ (fun s => negb (isBracketed s)) tag after i);
      [|now rewrite Htag|assumption].
    destruct after as [|a after]; [discriminate|].
    change (nth (S i) (tag :: a :: after) []) with (nth i (a :: after) []).
    rewrite Hnth. simpl.
    now rewrite (strip_tag Hshape).
  - (* one text stands before the tag: it is the text *)
    destruct before as [|q before]; [|simpl in Hlen; lia].
    simpl in Hbefore. rewrite andb_true_r in Hbefore.
    simpl app in *. simpl in Hfind. rewrite Hbefore in Hfind. injection Hfind as <-.
    rewrite (@findIndex_here _ (fun s => negb (isBracketed s)) p (tag :: after));
      [|assumption].
    simpl.
    now rewrite (strip_tag Hshape).
Qed.

(** C5, as the code has it.  ["[ar:Beyond]"] is one span, so line 98
    returns the line itself as text, and no time. *)
Theorem parseTimestamp_single_tag :
  parseTimestamp (str "[ar:Beyond]")
  = {| Parsed.time := None; Parsed.text := Some (str "[ar:Beyond]") |}.
Proof. reflexivity. Qed.

End ParseTimestamp.

(** ** The karaoke tokenizer *)

Lemma span_app (p : char -> bool) (s x a b : jsstring) :
  span p s = (a, b) ->
  match x with [] => True | c :: _ => p c = false end ->
  span p (s ++ x) = (a, b ++ x).
Proof.
  revert a b; induction s as [|c s IH]; simpl; intros a b H Hx.
  - injection H as <- <-. destruct x as [|c x]; simpl; [reflexivity | now rewrite Hx].
  - destruct (p c).
    + destruct (span p s) as [a' b'] eqn:E. injection H as <- <-.
      now rewrite (IH _ _ eq_refl Hx).
    + now injection H as <- <-.
Qed.

Lemma span_all (p : char -> bool) (d rest : jsstring) :
  forallb p d = true ->
  match rest with [] => True | c :: _ => p c = false end ->
  span p (d ++ rest) = (d, rest).
Proof.
  induction d as [|c d IH]; simpl; intros Hd Hrest.
  - destruct rest as [|c rest]; simpl; [reflexivity | now rewrite Hrest].
  - apply andb_true_iff in Hd as [Hc Hd]. now rewrite Hc, IH.
Qed.

Lemma span_length (p : char -> bool) (s a b : jsstring) :
  span p s = (a, b) -> (List.length b <= List.length s)%nat.
Proof.
  intros H. apply span_eq in H as (-> & _). rewrite length_app. lia.
Qed.

Lemma marker_text_app (m : Marker) (rest : jsstring) :
  marker_text m ++ rest
  = lparen :: first_field m ++ comma :: second_field m ++ rparen :: rest.
Proof.
  unfold marker_text. simpl. rewrite <- app_assoc. simpl.
  now rewrite <- app_assoc.
Qed.

(** A marker at the head of a text is matched, and its second field captured. *)
Lemma match_marker_text (m : Marker) (rest : jsstring) :
  digits (first_field m) = true ->
  digits (second_field m) = true ->
  match_marker (marker_text m ++ rest) = Some (second_field m, rest).
Proof.
  rewrite marker_text_app. unfold digits. destruct m as [f1 f2]. simpl first_field.
  simpl second_field.
  intros H1 H2. apply andb_true_iff in H1 as [N1 D1], H2 as [N2 D2].
  unfold match_marker. change (char_eqb lparen lparen) with true. cbv iota.
  rewrite (span_all isDigit f1 (comma :: f2 ++ rparen :: rest) D1) by reflexivity.
  destruct f1 as [|c1 f1]; [discriminate|].
  change (char_eqb comma comma) with true. cbv iota.
  rewrite (span_all isDigit f2 (rparen :: rest) D2) by reflexivity.
  destruct f2 as [|c2 f2]; [discriminate|]. reflexivity.
Qed.

(** Nothing else is matched: a match is a marker, two runs of digits
    between parentheses with a comma between them. *)
Lemma match_marker_inv (s capture rest : jsstring) :
  match_marker s = Some (capture, rest) ->
  exists m, digits (first_field m) = true
            /\ digits (second_field m) = true
            /\ second_field m = capture
            /\ s = marker_text m ++ rest.
Proof.
  unfold match_marker. destruct s as [|c s1]; [discriminate|].
  destruct (char_eqb c lparen) eqn:Ec; [|discriminate].
  destruct (span isDigit s1) as [d1 s2] eqn:E1.
  destruct d1 as [|x d1]; [discriminate|]. destruct s2 as [|c2 s3]; [discriminate|].
  destruct (char_eqb c2 comma) eqn:Ec2; [|discriminate].
  destruct (span isDigit s3) as [d2 s4] eqn:E2.
  destruct d2 as [|y d2]; [discriminate|]. destruct s4 as [|c3 s5]; [discriminate|].
  destruct (char_eqb c3 rparen) eqn:Ec3; [|discriminate].
  intros H. injection H as <- <-.
  apply N.eqb_eq in Ec, Ec2, Ec3. subst c c2 c3.
  apply span_eq in E1 as (-> & D1 & _), E2 as (-> & D2 & _).
  exists {| first_field := x :: d1; second_field := y :: d2 |}.
  unfold digits. simpl first_field. simpl second_field.
  rewrite D1, D2. repeat split.
  now rewrite marker_text_app.
Qed.

(** X3. The recogniser and the expression [/\(\d+,(\d+)\)/] agree: there is a
    match at the head of a text exactly when the text starts with a
    parenthesis, digits, a comma, digits and a parenthesis; the capture is
    the second run of digits, and the match ends after the parenthesis. *)
Theorem match_marker_iff (s capture rest : jsstring) :
  match_marker s = Some (capture, rest)
  <-> exists m, digits (first_field m) = true
                /\ digits (second_field m) = true
                /\ second_field m = capture
                /\ s = marker_text m ++ rest.
Proof.
  split; [apply match_marker_inv|].
  intros (m & H1 & H2 & <- & ->). now apply match_marker_text.
Qed.

Lemma match_marker_shorter (s capture rest : jsstring) :
  match_marker s = Some (capture, rest) -> (List.length rest < List.length s)%nat.
Proof.
  unfold match_marker. destruct s as [|c s1]; [discriminate|].
  destruct (char_eqb c lparen); [|discriminate].
  destruct (span isDigit s1) as [d1 s2] eqn:E1.
  destruct d1 as [|x d1]; [discriminate|]. destruct s2 as [|c2 s3]; [discriminate|].
  destruct (char_eqb c2 comma); [|discriminate].
  destruct (span isDigit s3) as [d2 s4] eqn:E2.
  destruct d2 as [|y d2]; [discriminate|]. destruct s4 as [|c3 s5]; [discriminate|].
  destruct (char_eqb c3 rparen); [|discriminate].
  intros H. injection H as <- <-.
  apply span_length in E1, E2. simpl in *. lia.
Qed.

(** No match inside a piece stays no match when the text goes on with a
    marker, or ends. *)
Lemma match_marker_none_app (c : char) (u x : jsstring) :
  match_marker (c :: u) = None -> boundary x -> match_marker ((c :: u) ++ x) = None.
Proof.
  intros H Hx.
  assert (Hd : match x with [] => True | c :: _ => isDigit c = false end).
  { destruct x as [|c0 x]; [exact I|]. simpl in Hx. now subst c0. }
  revert H. simpl. destruct (char_eqb c lparen); [|reflexivity].
  destruct (span isDigit u) as [d1 s2] eqn:E1.
  rewrite (span_app _ _ x E1 Hd).
  destruct d1 as [|y d1].
  { intros _. now destruct (s2 ++ x). }
  destruct s2 as [|c2 s3]; simpl.
  { intros _. destruct x as [|c0 x]; [reflexivity|]. simpl in Hx. now subst c0. }
  destruct (char_eqb c2 comma); [|reflexivity].
  destruct (span isDigit s3) as [d2 s4] eqn:E2.
  rewrite (span_app _ _ x E2 Hd).
  destruct d2 as [|z d2].
  { intros _. now destruct (s4 ++ x). }
  destruct s4 as [|c3 s5]; simpl.
  { intros _. destruct x as [|c0 x]; [reflexivity|]. simpl in Hx. now subst c0. }
  destruct (char_eqb c3 rparen); [discriminate | reflexivity].
Qed.

Lemma split_markers_fuel_S (n : nat) (s : jsstring) :
  split_markers_fuel (S n) s
  = match match_marker s with
    | Some (capture, rest) => [] :: capture :: split_markers_fuel n rest
    | None => match s with
              | [] => [[]]
              | c :: s' => push_front c (split_markers_fuel n s')
              end
    end.
Proof. reflexivity. Qed.

(** Fuel beyond the length of the text changes nothing. *)
Lemma split_markers_fuel_enough (n m : nat) (s : jsstring) :
  (List.length s <= n)%nat -> (List.length s <= m)%nat ->
  split_markers_fuel n s = split_markers_fuel m s.
Proof.
  revert m s; induction n as [|n IH]; intros m s Hn Hm.
  - destruct s; [|simpl in Hn; lia]. now destruct m.
  - destruct m as [|m].
    + destruct s; [|simpl in Hm; lia]. reflexivity.
    + rewrite !split_markers_fuel_S.
      destruct (match_marker s) as [[capture rest]|] eqn:E.
      * apply match_marker_shorter in E. do 2 f_equal. apply IH; lia.
      * destruct s as [|c s]; [reflexivity|]. simpl in Hn, Hm.
        f_equal. apply IH; lia.
Qed.

(** The equations of [split]: a marker at the head closes the piece being
    read and leaves its capture; any other character joins the piece. *)
Lemma split_markers_marker (s capture rest : jsstring) :
  match_marker s = Some (capture, rest) ->
  split_markers s = [] :: capture :: split_markers rest.
Proof.
  intros E. unfold split_markers.
  destruct s as [|c s]; [discriminate|].
  simpl List.length. rewrite split_markers_fuel_S, E.
  pose proof (match_marker_shorter _ E) as Hl. simpl in Hl.
  do 2 f_equal. apply split_markers_fuel_enough; lia.
Qed.

Lemma split_markers_char (c : char) (s : jsstring) :
  match_marker (c :: s) = None ->
  split_markers (c :: s) = push_front c (split_markers s).
Proof.
  intros E. unfold split_markers.
  simpl List.length. now rewrite split_markers_fuel_S, E.
Qed.

Lemma split_markers_nil : split_markers [] = [[]].
Proof. reflexivity. Qed.

Lemma split_markers_cons (s : jsstring) :
  exists piece pieces, split_markers s = piece :: pieces.
Proof.
  unfold split_markers. generalize (List.length s) as n. intros n.
  destruct n as [|n]; [now exists [], []|].
  rewrite split_markers_fuel_S.
  destruct (match_marker s) as [[capture rest]|]; [now eexists _, _|].
  destruct s as [|c s]; [now exists [], []|].
  destruct (split_markers_fuel n s); now eexists _, _.
Qed.

Lemma no_marker_cons (c : char) (w : jsstring) :
  no_marker (c :: w) = true -> match_marker (c :: w) = None /\ no_marker w = true.
Proof.
  change (no_marker (c :: w))
    with (match match_marker (c :: w) with Some _ => false | None => no_marker w end).
  destruct (match_marker (c :: w)); [discriminate | now split].
Qed.

Lemma split_markers_piece (w x : jsstring) :
  no_marker w = true -> boundary x ->
  split_markers (w ++ x) = prepend w (split_markers x).
Proof.
  intros Hw Hx. destruct (split_markers_cons x) as (piece & pieces & Ex).
  rewrite Ex. induction w as [|c w IH].
  - simpl. now rewrite Ex.
  - apply no_marker_cons in Hw as [E Hw].
    change ((c :: w) ++ x) with (c :: (w ++ x)).
    rewrite split_markers_char by (apply (@match_marker_none_app c w x E Hx)).
    now rewrite (IH Hw).
Qed.

Lemma boundary_karaoke_text (l : list (Marker * jsstring)) :
  boundary (karaoke_text [] l).
Proof. destruct l as [|[m w] l]; simpl; [exact I | reflexivity]. Qed.

Lemma split_markers_karaoke_text (lead : jsstring) (l : list (Marker * jsstring)) :
  no_marker lead = true -> karaoke_ok l = true ->
  split_markers (karaoke_text lead l) = lead :: components_of l.
Proof.
  intros Hlead Hl.
  assert (H : split_markers (karaoke_text [] l) = [] :: components_of l).
  { induction l as [|[m w] l IH]; [reflexivity|].
    simpl in Hl. apply andb_true_iff in Hl as [Hm Hl].
    apply andb_true_iff in Hm as [Hm Hw]. apply andb_true_iff in Hm as [H1 H2].
    change (karaoke_text [] ((m, w) :: l))
      with ((marker_text m ++ w) ++ karaoke_text [] l).
    rewrite <- app_assoc.
    rewrite (@split_markers_marker _ _ _ (@match_marker_text m _ H1 H2)).
    rewrite (@split_markers_piece _ _ Hw (boundary_karaoke_text l)).
    rewrite (IH Hl). simpl. now rewrite app_nil_r. }
  change (karaoke_text lead l) with (lead ++ karaoke_text [] l).
  rewrite (@split_markers_piece _ _ Hlead (boundary_karaoke_text l)), H.
  simpl. now rewrite app_nil_r.
Qed.

Lemma digit_not_space (c : char) : isDigit c = true -> isWhiteSpace c = false.
Proof.
  unfold isDigit, isWhiteSpace. intros H.
  apply andb_true_iff in H as [Hl Hu]. apply N.leb_le in Hl, Hu.
  repeat match goal with
         | |- context [(c =? ?k)%N] =>
           replace (c =? k)%N with false by (symmetry; apply N.eqb_neq; lia)
         end.
  replace (8192 <=? c)%N with false by (symmetry; apply N.leb_gt; lia).
  reflexivity.
Qed.

Lemma digit_not_sign (c : char) (s : jsstring) :
  isDigit c = true -> sign (c :: s) = (false, c :: s).
Proof.
  unfold isDigit, sign. intros H.
  apply andb_true_iff in H as [Hl Hu]. apply N.leb_le in Hl, Hu.
  replace (c =? 45)%N with false by (symmetry; apply N.eqb_neq; lia).
  replace (c =? 43)%N with false by (symmetry; apply N.eqb_neq; lia).
  reflexivity.
Qed.

Lemma digits_not_hex (p : char) (d : jsstring) :
  (p = 120 \/ p = 88)%N -> forallb isDigit d = true ->
  startsWith [48%N; p] d = false.
Proof.
  intros Hp Hd. unfold startsWith. simpl List.length.
  destruct d as [|c [|c2 d]]; simpl.
  - reflexivity.
  - now rewrite andb_false_r.
  - simpl in Hd. apply andb_true_iff in Hd as [_ Hd].
    apply andb_true_iff in Hd as [Hd _]. unfold isDigit in Hd.
    apply andb_true_iff in Hd as [Hl Hu]. apply N.leb_le in Hl, Hu.
    unfold char_eqb.
    replace (p =? c2)%N with false by (symmetry; apply N.eqb_neq; lia).
    now rewrite andb_false_r.
Qed.

Lemma decimal_from_nonneg (d : jsstring) (acc : Z) :
  (0 <= acc)%Z -> forallb isDigit d = true ->
  (0 <= fold_left (fun acc c => 10 * acc + digitValue c) d acc)%Z.
Proof.
  revert acc; induction d as [|c d IH]; cbn [fold_left forallb]; intros acc Hacc Hd;
    [assumption|].
  apply andb_true_iff in Hd as [Hc Hd]. apply IH; [|assumption].
  unfold isDigit in Hc. apply andb_true_iff in Hc as [Hl _]. apply N.leb_le in Hl.
  unfold digitValue, char in *. lia.
Qed.

Lemma decimal_nonneg (d : jsstring) :
  forallb isDigit d = true -> (0 <= decimal d)%Z.
Proof. apply decimal_from_nonneg. lia. Qed.

(** On a run of digits, as the captures are, [parseInt] is the decimal
    value, as the number nearest to it. *)
Lemma parseInt_digits (d : jsstring) :
  digits d = true -> parseInt d = ofInteger (decimal d).
Proof.
  unfold digits. intros H. apply andb_true_iff in H as [Hne Hd].
  destruct d as [|c d]; [discriminate|].
  assert (Hc : isDigit c = true) by (simpl in Hd; now apply andb_true_iff in Hd).
  unfold parseInt.
  replace (trimStart (c :: d)) with (c :: d)
    by (simpl; now rewrite (@digit_not_space c Hc)).
  rewrite (@digit_not_sign c d Hc).
  change (str "0x") with [48%N; 120%N]. change (str "0X") with [48%N; 88%N].
  rewrite !digits_not_hex by (auto; lia). cbv iota. simpl orb. cbv iota.
  pose proof (@span_all isDigit (c :: d) [] Hd I) as Hs.
  rewrite app_nil_r in Hs. rewrite Hs. cbn [isEmpty]. apply signed_integer.
Qed.

(** The tokens of a karaoke text: one for each marker whose span is not the
    single space. *)
Lemma breakdownLine_karaoke_text (lead : jsstring) (l : list (Marker * jsstring)) :
  no_marker lead = true -> karaoke_ok l = true ->
  breakdownLine (karaoke_text lead l) = flat_map token_of l.
Proof.
  intros Hlead Hl. unfold breakdownLine.
  rewrite (@split_markers_karaoke_text lead l Hlead Hl). simpl skipn.
  clear Hlead. induction l as [|[m w] l IH]; [reflexivity|].
  simpl in Hl. apply andb_true_iff in Hl as [Hm Hl].
  apply andb_true_iff in Hm as [Hm _]. apply andb_true_iff in Hm as [_ H2].
  change (components_of ((m, w) :: l)) with (second_field m :: w :: components_of l).
  change (flat_map token_of ((m, w) :: l)) with (token_of (m, w) ++ flat_map token_of l).
  unfold token_of at 1. simpl fst. simpl snd.
  cbn [breakdown_loop]. rewrite (IH Hl), (@parseInt_digits _ H2).
  now destruct (string_eqb w [space]).
Qed.

(** C10. In a karaoke text, a marker's span is skipped only when it is the
    one-character string [" "]: every other span [w] gives the token of
    word [w + " "] and of time the marker's captured field -- its decimal
    value, as the binary64 value nearest to it, which is the value itself
    up to 2^53.  So the empty span of a marker that is directly followed by
    the next marker (or by the end of the text) gives the token of word
    [" "]. *)
Theorem breakdownLine_skips_single_space_only
    (lead : jsstring) (l : list (Marker * jsstring)) :
  no_marker lead = true ->
  karaoke_ok l = true ->
  breakdownLine (karaoke_text lead l) = flat_map token_of l
  /\ (forall m w, In (m, w) l -> w <> [space] ->
        In {| word := w ++ [space]; time := ofInteger (decimal (second_field m)) |}
           (breakdownLine (karaoke_text lead l)))
  /\ (forall m, In (m, []) l ->
        In {| word := [space]; time := ofInteger (decimal (second_field m)) |}
           (breakdownLine (karaoke_text lead l)))
  /\ (forall m w, In (m, w) l -> w <> [space] ->
        (decimal (second_field m) <= 2 ^ 53)%Z ->
        In {| word := w ++ [space]; time := ofZ (decimal (second_field m)) |}
           (breakdownLine (karaoke_text lead l))).
Proof.
  intros Hlead Hl. rewrite (@breakdownLine_karaoke_text lead l Hlead Hl).
  assert (H : forall m w, In (m, w) l -> w <> [space] ->
            In {| word := w ++ [space]; time := ofInteger (decimal (second_field m)) |}
               (flat_map token_of l)).
  { intros m w Hin Hw. apply in_flat_map. exists (m, w). split; [assumption|].
    unfold token_of. simpl fst. simpl snd.
    apply string_eqb_neq in Hw. rewrite Hw. now left. }
  split; [reflexivity|]. split; [assumption|]. split.
  - intros m Hin. apply (H m [] Hin). discriminate.
  - intros m w Hin Hw Hsafe.
    rewrite <- (@ofInteger_safe (decimal (second_field m))); [now apply H|].
    assert (Hd : forallb isDigit (second_field m) = true).
    { unfold karaoke_ok in Hl. rewrite forallb_forall in Hl.
      specialize (Hl _ Hin). simpl in Hl.
      apply andb_true_iff in Hl as [Hm _]. apply andb_true_iff in Hm as [_ H2].
      unfold digits in H2. now apply andb_true_iff in H2 as [_ H2]. }
    pose proof (@decimal_nonneg (second_field m) Hd). lia.
Qed.

(** The words of the tokens, put together, depend on the spans only. *)
Lemma words_of_tokens (l : list (Marker * jsstring)) :
  List.concat (map word (flat_map token_of l))
  = List.concat (map (fun w => if string_eqb w [space] then [] else w ++ [space])
                   (map snd l)).
Proof.
  induction l as [|[m w] l IH]; [reflexivity|].
  simpl. rewrite map_app, concat_app, IH. unfold token_of. simpl snd.
  destruct (string_eqb w [space]); simpl; [reflexivity | now rewrite app_nil_r].
Qed.

Lemma spaced_words_respaced (w : jsstring) (ws tail : list jsstring) :
  Forall (fun w' => w' <> [space]) (w :: ws) ->
  tail = [] \/ tail = [[]] ->
  List.concat (map (fun w => if string_eqb w [space] then [] else w ++ [space])
                 (spaced_words w ws ++ tail))
  = List.concat (spaced_words w ws ++ tail) ++ repeat space (1 + List.length tail).
Proof.
  revert w; induction ws as [|w' ws IH]; intros w Hall Htail.
  - apply Forall_inv in Hall. apply string_eqb_neq in Hall.
    unfold spaced_words. simpl. rewrite Hall.
    destruct Htail as [-> | ->]; simpl; rewrite ?app_nil_r; [reflexivity|].
    rewrite <- app_assoc. reflexivity.
  - pose proof (Forall_inv Hall) as Hw. apply Forall_inv_tail in Hall.
    apply string_eqb_neq in Hw.
    change (spaced_words w (w' :: ws) ++ tail)
      with (w :: [space] :: (spaced_words w' ws ++ tail)).
    cbn [map List.concat]. rewrite Hw, (IH w' Hall Htail).
    change (string_eqb [space] [space]) with true. cbv iota.
    rewrite app_nil_l, <- !app_assoc. reflexivity.
Qed.

Lemma unspaced_app (a b : jsstring) : unspaced (a ++ b) = unspaced a ++ unspaced b.
Proof. apply filter_app. Qed.

Lemma spans_respaced_unspaced (spans : list jsstring) :
  unspaced (List.concat (map (fun w => if string_eqb w [space] then [] else w ++ [space])
                           spans))
  = unspaced (List.concat spans).
Proof.
  induction spans as [|w spans IH]; [reflexivity|].
  cbn [map List.concat]. rewrite !unspaced_app, IH. f_equal.
  destruct (string_eqb w [space]) eqn:E.
  - apply string_eqb_eq in E. now subst w.
  - rewrite unspaced_app. apply app_nil_r.
Qed.

(** C8. Take a karaoke text: markers, each followed by its span.  The words
    of its tokens, put together in order, are the text without its markers
    up to spaces.  When the spans are words separated by single-space spans
    ([w], then [" "] and a word, any number of times), possibly with one
    last marker followed by nothing, they are that text followed only by the
    spaces the tokenizer adds at the end: one after the last word, one more
    for a last empty span. *)
Theorem breakdownLine_roundtrip (l : list (Marker * jsstring)) :
  karaoke_ok l = true ->
  unspaced (List.concat (map word (breakdownLine (karaoke_text [] l))))
  = unspaced (spoken l)
  /\ forall (w : jsstring) (ws tail : list jsstring),
       map snd l = spaced_words w ws ++ tail ->
       Forall (fun w' => w' <> [space]) (w :: ws) ->
       tail = [] \/ tail = [[]] ->
       List.concat (map word (breakdownLine (karaoke_text [] l)))
       = spoken l ++ repeat space (1 + List.length tail).
Proof.
  intros Hl.
  rewrite (@breakdownLine_karaoke_text [] l eq_refl Hl), words_of_tokens.
  unfold spoken. split.
  - apply spans_respaced_unspaced.
  - intros w ws tail Hspans Hwords Htail.
    rewrite Hspans. now apply spaced_words_respaced.
Qed.

(** C4, as the code has it.  The expression captures the second field of a
    marker, and the empty span after the last marker is a span like any
    other: three tokens, of times 508, 151 and 1. *)
Theorem breakdownLine_example :
  breakdownLine (str "(0,508)Don't(0,1) (0,151)want(0,1)")
  = [ {| word := str "Don't "; time := ofZ 508 |};
      {| word := str "want "; time := ofZ 151 |};
      {| word := str " "; time := ofZ 1 |} ].
Proof. reflexivity. Qed.

(** ** The theorems on concrete inputs *)

Example search_earlier_of_two :
  @search (sample_host [other_song; album_song; duration_song]) query = Return album_song.
Proof. reflexivity. Qed.

Example search_by_duration :
  @search (sample_host [other_song; duration_song; album_song]) query = Return duration_song.
Proof. reflexivity. Qed.

Example search_one_second_apart :
  @search (sample_host [other_song; late_song]) query = Throw NotFoundError.
Proof. reflexivity. Qed.

Example search_nothing_found :
  @search (sample_host []) query = Throw NotFoundError.
Proof. reflexivity. Qed.

(** C3 on a block of two well-timed lines, the second one the notice. *)
Lemma instrumental_notice_witness :
  @getSynced (sample_host []) (answer instrumental_block) = None
  /\ @getUnsynced (sample_host []) (answer instrumental_block) = None.
Proof.
  apply (@instrumental_notice_gives_null (sample_host []) (answer instrumental_block)
           instrumental_block (str "[00:05.00]纯音乐, 请欣赏")).
  - reflexivity.
  - vm_compute. right. left. reflexivity.
  - reflexivity.
Defined.

Example synced_without_notice :
  @getSynced (sample_host []) (answer (str "[00:01.00]first line" ++ newline ++ str "[00:05.50]second"))
  = Some [ {| Synced.startTime := ofZ 1000; Synced.text := str "First line" |};
           {| Synced.startTime := ofZ 5500; Synced.text := str "Second" |} ].
Proof. reflexivity. Qed.

(** C6 on a block of two credit lines, read by the four extractors. *)
Lemma credits_block_witness :
  credits_only (host := sample_host []) credits_block = true
  /\ @getKaraoke (sample_host []) (answer credits_block) = None
  /\ @getSynced (sample_host []) (answer credits_block) = None
  /\ @getUnsynced (sample_host []) (answer credits_block) = None
  /\ @getTranslation (sample_host []) (answer credits_block) = None.
Proof.
  assert (H : credits_only (host := sample_host []) credits_block = true) by reflexivity.
  split; [exact H|].
  destruct (@credits_block_gives_null (sample_host []) (answer credits_block) credits_block H)
    as (Hk & Hs & Ht).
  split; [exact (Hk eq_refl)|]. split; [exact (proj1 (Hs eq_refl))|].
  split; [exact (proj2 (Hs eq_refl)) | exact (Ht eq_refl)].
Defined.

Example unsynced_keeps_text_lines :
  @getUnsynced (sample_host []) (answer (str "作词：Someone" ++ newline ++ str "plain text"))
  = Some [ {| Parsed.time := None; Parsed.text := Some (str "plain text") |} ].
Proof. reflexivity. Qed.

(** C8 on the line of the source's comment: two words, a last empty span. *)
Lemma breakdownLine_roundtrip_witness :
  List.concat (map word (breakdownLine (str "(0,508)Don't(0,1) (0,151)want(0,1)")))
  = str "Don't want" ++ [space; space].
Proof.
  apply (proj2 (@breakdownLine_roundtrip dont_want eq_refl) (str "Don't") [str "want"] [[]]).
  - reflexivity.
  - repeat constructor; discriminate.
  - right. reflexivity.
Defined.

(** C10 on two markers with nothing between them. *)
Lemma breakdownLine_adjacent_markers_witness :
  In {| word := [space]; time := ofZ 5 |} (breakdownLine (str "(0,5)(7,9)x")).
Proof.
  apply (proj1 (proj2 (proj2 (@breakdownLine_skips_single_space_only [] adjacent_markers
                                eq_refl eq_refl)))
           {| first_field := str "0"; second_field := str "5" |}).
  left. reflexivity.
Defined.

Example breakdownLine_adjacent_markers :
  breakdownLine (str "(0,5)(7,9)x")
  = [ {| word := str " "; time := ofZ 5 |}; {| word := str "x "; time := ofZ 9 |} ].
Proof. reflexivity. Qed.

(** C9 on the line of the spec: a tag, then its text. *)
Lemma parseTimestamp_time_and_text_witness :
  @parseTimestamp (sample_host []) (str "[03:10]lyrics")
  = {| Parsed.time := Some (str "03:10"); Parsed.text := Some (str "Lyrics") |}.
Proof.
  apply (@parseTimestamp_time_and_text (sample_host []) (str "[03:10]lyrics")
           [] (str "[03:10]") [str "lyrics"] (str "lyrics")).
  - reflexivity.
  - reflexivity.
  - reflexivity.
  - simpl. lia.
  - reflexivity.
Defined.

Example parseTimestamp_text_before_tag :
  @parseTimestamp (sample_host []) (str "lyrics[03:10][03:11]")
  = {| Parsed.time := Some (str "03:10"); Parsed.text := Some (str "Lyrics") |}.
Proof. reflexivity. Qed.

(** ** Where the code departs from the spec *)

(** C4 as stated fails: the tokens are three, and the first has time 508;
    the two tokens of the spec, of times 0 and 151, are not what comes out. *)
Lemma breakdownLine_example_refuted :
  breakdownLine (str "(0,508)Don't(0,1) (0,151)want(0,1)")
  = [ {| word := str "Don't "; time := ofZ 508 |};
      {| word := str "want "; time := ofZ 151 |};
      {| word := str " "; time := ofZ 1 |} ]
  /\ breakdownLine (str "(0,508)Don't(0,1) (0,151)want(0,1)")
     <> [ {| word := str "Don't "; time := ofZ 0 |};
          {| word := str "want "; time := ofZ 151 |} ].
Proof. split; [reflexivity | discriminate]. Qed.

(** C5 as stated fails: the line comes back as text, and there is no time. *)
Lemma parseTimestamp_single_tag_refuted :
  @parseTimestamp (sample_host []) (str "[ar:Beyond]")
  = {| Parsed.time := None; Parsed.text := Some (str "[ar:Beyond]") |}
  /\ @parseTimestamp (sample_host []) (str "[ar:Beyond]")
     <> {| Parsed.time := Some (str "ar:Beyond"); Parsed.text := None |}.
Proof. split; [reflexivity | discriminate]. Qed.

(** C9 as stated fails on ["a]b[c]"]: three spans, two of them not
    bracketed, the first bracketed one [[c]] of content [c]; the time
    returned is the second text span [b]. *)
Lemma parseTimestamp_stray_bracket_refuted :
  spans (str "a]b[c]") = [str "a"; str "b"; str "[c]"]
  /\ find isBracketed (spans (str "a]b[c]")) = Some (str "[c]")
  /\ content (str "[c]") = str "c"
  /\ find (fun s => negb (isBracketed s)) (spans (str "a]b[c]")) = Some (str "a")
  /\ @parseTimestamp (sample_host []) (str "a]b[c]")
     = {| Parsed.time := Some (str "b"); Parsed.text := Some (str "A") |}
  /\ Parsed.time (@parseTimestamp (sample_host []) (str "a]b[c]")) <> Some (str "c").
Proof. repeat split; try reflexivity. discriminate. Qed.

(** * More of the code *)

(** ** Spans keep the line *)

Lemma isBracket_l : isBracket lbracket = true.
Proof. reflexivity. Qed.

Lemma isBracket_r : isBracket rbracket = true.
Proof. reflexivity. Qed.

Lemma unbracketed_app (a b : jsstring) :
  unbracketed (a ++ b) = unbracketed a ++ unbracketed b.
Proof. apply filter_app. Qed.

Lemma unbracketed_bracket (c : char) (s : jsstring) :
  isBracket c = true -> unbracketed (c :: s) = unbracketed s.
Proof. intros H. unfold unbracketed. simpl. now rewrite H. Qed.

Lemma match_spans_unbracketed (fuel : nat) (s : jsstring) :
  (List.length s <= fuel)%nat ->
  unbracketed (List.concat (match_spans fuel s)) = unbracketed s.
Proof.
  revert s; induction fuel as [|fuel IH]; intros s Hlen.
  - destruct s; [reflexivity | simpl in Hlen; lia].
  - destruct s as [|c s]; [reflexivity|]. simpl in Hlen. rewrite match_spans_S.
    destruct (char_eqb c lbracket) eqn:El.
    + assert (Hc : isBracket c = true) by (unfold isBracket; now rewrite El).
      rewrite (@unbracketed_bracket c s Hc).
      destruct (bracket_body s) as [[body rest]|] eqn:Eb; [|apply IH; lia].
      apply bracket_body_eq in Eb as (-> & _). rewrite length_app in Hlen. simpl in Hlen.
      cbn [List.concat]. rewrite unbracketed_app, IH by lia.
      rewrite (@unbracketed_bracket c _ Hc), !unbracketed_app.
      rewrite !(@unbracketed_bracket rbracket _ isBracket_r).
      change (unbracketed []) with (@nil char). now rewrite app_nil_r.
    + destruct (char_eqb c rbracket) eqn:Er.
      * assert (Hc : isBracket c = true) by (unfold isBracket; now rewrite Er, orb_true_r).
        rewrite (@unbracketed_bracket c s Hc). apply IH; lia.
      * destruct (span (fun d => negb (isBracket d)) s) as [run rest] eqn:Es.
        apply span_eq in Es as (-> & _). rewrite length_app in Hlen.
        cbn [List.concat]. rewrite unbracketed_app, IH by lia.
        change (c :: run ++ rest) with ((c :: run) ++ rest).
        now rewrite unbracketed_app.
Qed.

(** X4. Cutting a line into spans loses nothing but brackets: the spans put
    together and the line are the same text once brackets are taken out of
    both (only a bracket that opens or closes no tag is skipped); and no
    span is empty. *)
Theorem spans_lose_brackets_only (line : jsstring) :
  unbracketed (List.concat (spans line)) = unbracketed line
  /\ forall t, In t (spans line) -> t <> [].
Proof.
  split; [apply match_spans_unbracketed; reflexivity|].
  intros t Hin. apply match_spans_shape in Hin as [(body & -> & _)|[Hne _]].
  - discriminate.
  - assumption.
Qed.

(** ** Every text is a karaoke text *)

Lemma match_marker_some_app (u x capture rest : jsstring) :
  match_marker u = Some (capture, rest) ->
  match_marker (u ++ x) = Some (capture, rest ++ x).
Proof.
  intros H. apply match_marker_inv in H as (m & H1 & H2 & <- & ->).
  rewrite <- app_assoc. now apply match_marker_text.
Qed.

Lemma match_marker_app_none (c : char) (u x : jsstring) :
  match_marker ((c :: u) ++ x) = None -> match_marker (c :: u) = None.
Proof.
  intros H. destruct (match_marker (c :: u)) as [[capture rest]|] eqn:E; [|reflexivity].
  rewrite (@match_marker_some_app (c :: u) x capture rest E) in H. discriminate.
Qed.

Lemma karaoke_text_cons (m : Marker) (w : jsstring) (l : list (Marker * jsstring)) :
  karaoke_text [] ((m, w) :: l) = marker_text m ++ karaoke_text w l.
Proof. unfold karaoke_text. simpl. now rewrite <- app_assoc. Qed.

Lemma karaoke_text_lead (lead : jsstring) (l : list (Marker * jsstring)) :
  karaoke_text lead l = lead ++ karaoke_text [] l.
Proof. reflexivity. Qed.

(** A text is what stands before its first marker, then its markers, each
    with the span up to the next marker. *)
Lemma karaoke_text_exists (text : jsstring) :
  exists lead l,
    text = karaoke_text lead l /\ no_marker lead = true /\ karaoke_ok l = true.
Proof.
  remember (List.length text) as n eqn:En.
  assert (Hn : (List.length text <= n)%nat) by lia. clear En.
  revert text Hn; induction n as [|n IH]; intros text Hn.
  - destruct text; [|simpl in Hn; lia]. now exists [], [].
  - destruct text as [|c s]; [now exists [], []|]. simpl in Hn.
    destruct (match_marker (c :: s)) as [[capture rest]|] eqn:E.
    + pose proof (@match_marker_shorter _ _ _ E) as Hlen. simpl in Hlen.
      destruct (@match_marker_inv _ _ _ E) as (m & H1 & H2 & _ & Htext).
      destruct (IH rest ltac:(lia)) as (lead & l & -> & Hlead & Hl).
      exists [], ((m, lead) :: l). split; [|split].
      * now rewrite karaoke_text_cons.
      * reflexivity.
      * simpl. now rewrite H1, H2, Hlead, Hl.
    + destruct (IH s ltac:(lia)) as (lead & l & Hs & Hlead & Hl).
      exists (c :: lead), l. split; [|split].
      * rewrite Hs. reflexivity.
      * rewrite Hs, karaoke_text_lead in E.
        change (no_marker (c :: lead))
          with (match match_marker (c :: lead) with
                | Some _ => false
                | None => no_marker lead
                end).
        now rewrite (@match_marker_app_none c lead (karaoke_text [] l) E).
      * assumption.
Qed.

(** X5. [breakdownLine] reads every text as a karaoke text: the text is
    what stands before its first marker, then markers, each with the
    marker-free span up to the next one, and the tokens are those of the
    spans that are not the single space, in order -- each of word the span
    plus a space and of time the decimal value of the marker's second field,
    as the binary64 value nearest to it ([Infinity] for a field too long). *)
Theorem breakdownLine_total (text : jsstring) :
  exists lead l,
    text = karaoke_text lead l
    /\ no_marker lead = true
    /\ karaoke_ok l = true
    /\ breakdownLine text = flat_map token_of l.
Proof.
  destruct (karaoke_text_exists text) as (lead & l & -> & Hlead & Hl).
  exists lead, l. repeat split; try assumption.
  now apply breakdownLine_karaoke_text.
Qed.


(** ** The credit filter *)

Lemma canonicalize_idempotent (c : char) : canonicalize (canonicalize c) = canonicalize c.
Proof.
  unfold canonicalize.
  destruct ((97 <=? c) && (c <=? 122))%N eqn:E; [|now rewrite E].
  apply andb_true_iff in E as [Hl Hu]. apply N.leb_le in Hl, Hu.
  replace (97 <=? c - 32)%N with false by (symmetry; apply N.leb_gt; lia).
  reflexivity.
Qed.

Lemma canonicalize_cases (c : char) :
  canonicalize c = c
  \/ ((97 <= c <= 122)%N /\ canonicalize c = (c - 32)%N).
Proof.
  unfold canonicalize.
  destruct ((97 <=? c) && (c <=? 122))%N eqn:E; [right | now left].
  apply andb_true_iff in E as [Hl Hu]. apply N.leb_le in Hl, Hu. now repeat split.
Qed.

Lemma canonicalize_line_terminator (c : char) :
  isLineTerminator (canonicalize c) = isLineTerminator c.
Proof.
  destruct (canonicalize_cases c) as [->|([Hl Hu] & ->)]; [reflexivity|].
  unfold isLineTerminator.
  repeat match goal with
         | |- context [(?x =? ?k)%N] =>
           replace (x =? k)%N with false by (symmetry; apply N.eqb_neq; lia)
         end.
  reflexivity.
Qed.

Lemma canonicalize_white_space (c : char) :
  isWhiteSpace (canonicalize c) = isWhiteSpace c.
Proof.
  destruct (canonicalize_cases c) as [->|([Hl Hu] & ->)]; [reflexivity|].
  unfold isWhiteSpace.
  repeat match goal with
         | |- context [(?x =? ?k)%N] =>
           replace (x =? k)%N with false by (symmetry; apply N.eqb_neq; lia)
         end.
  replace (8192 <=? c - 32)%N with false by (symmetry; apply N.leb_gt; lia).
  replace (8192 <=? c)%N with false by (symmetry; apply N.leb_gt; lia).
  reflexivity.
Qed.

Lemma deriv_canonicalize (c : char) (r : regex) :
  deriv true (canonicalize c) r = deriv true c r.
Proof.
  induction r; simpl; try reflexivity.
  - unfold char_matches. now rewrite canonicalize_idempotent.
  - now rewrite canonicalize_line_terminator.
  - now rewrite canonicalize_white_space.
  - now rewrite IHr1, IHr2.
  - now rewrite IHr1, IHr2.
  - assumption.
  - now rewrite IHr.
Qed.

Lemma test_anchored_canonicalize (r : regex) (s : jsstring) :
  test_anchored true r (map canonicalize s) = test_anchored true r s.
Proof.
  revert r; induction s as [|c s IH]; intros r; [reflexivity|].
  simpl. now rewrite deriv_canonicalize, IH.
Qed.

(** X8. The credit filter does not see the case of ASCII letters: a text
    and the same text with its letters [a-z] raised to [A-Z] get the same
    verdict (the [i] flag of the pattern). *)
Theorem containCredits_ignores_case (text : jsstring) :
  containCredits (map canonicalize text) = containCredits text.
Proof. apply test_anchored_canonicalize. Qed.

Lemma matches_three (i : bool) (a b c : regex) (s : jsstring) :
  matches i (cats [a; b; c]) s ->
  exists s1 s2 s3, s = s1 ++ s2 ++ s3 /\ matches i c s3.
Proof.
  unfold cats. simpl. intros H.
  apply matches_Cat in H as (s1 & r1 & -> & _ & H).
  apply matches_Cat in H as (s2 & r2 & -> & _ & H).
  apply matches_Cat in H as (s3 & r3 & -> & H & He).
  inversion He; subst. exists s1, s2, s3. now rewrite app_nil_r.
Qed.

Lemma matches_one_char (p : char) (s : jsstring) :
  matches true (Cat (Chr p) Eps) s ->
  canonicalize p = p -> (p < 97 - 32)%N \/ (122 - 32 < p)%N ->
  s = [p].
Proof.
  intros H Hp Hrange. apply matches_Cat in H as (s1 & s2 & -> & H1 & H2).
  inversion H2; subst. inversion H1; subst.
  unfold char_matches in *. rewrite Hp in *.
  match goal with H : char_eqb _ _ = true |- _ => apply N.eqb_eq in H; rename H into Hc end.
  simpl. f_equal.
  destruct (canonicalize_cases c) as [E|([Hl Hu] & E)]; rewrite E in Hc; lia.
Qed.

(** X7. A text the credit filter matches holds a colon, [:] or the
    full-width one, and stays matched whatever is written after it: without
    a colon no line is taken for a credit. *)
Theorem containCredits_colon_required (text : jsstring) :
  containCredits text = true ->
  (In (chr ":") text \/ In wide_colon text)
  /\ forall more, containCredits (text ++ more) = true.
Proof.
  unfold containCredits. intros H.
  apply test_anchored_matches in H as (prefix & rest & -> & H). split.
  - unfold creditInfoRegExp in H.
    apply matches_three in H as (s1 & s2 & s3 & -> & H).
    change (lit ":") with (Cat (Chr (chr ":")) Eps) in H.
    change (lit "：") with (Cat (Chr wide_colon) Eps) in H.
    inversion H; subst.
    + left. rewrite (@matches_one_char (chr ":") s3) by
        (try assumption; try reflexivity; left; reflexivity).
      rewrite !in_app_iff. left. right. right. now left.
    + right. rewrite (@matches_one_char wide_colon s3) by
        (try assumption; try reflexivity; right; reflexivity).
      rewrite !in_app_iff. left. right. right. now left.
  - intros more. apply test_anchored_matches.
    exists prefix, (rest ++ more). split; [now rewrite app_assoc | assumption].
Qed.

(** ** What the extractors return *)

Lemma compact_In {A} (l : list (option A)) (x : A) :
  In x (compact l) <-> In (Some x) l.
Proof.
  induction l as [|[a|] l IH]; simpl.
  - reflexivity.
  - rewrite IH. split; intros [H|H]; auto; left; congruence.
  - rewrite IH. split; [now right | intros [H|H]; [discriminate | assumption]].
Qed.

Lemma nonempty_not_nil (s : jsstring) : isEmpty s = false <-> s <> [].
Proof. destruct s; simpl; split; congruence. Qed.

Section Returned.

Context {host : Host}.

Lemma synced_line_some (p : Parsed.t) (e : Synced.t) :
  synced_line p = Some e ->
  exists time,
    p = {| Parsed.time := Some time; Parsed.text := Some (Synced.text e) |}
    /\ time <> []
    /\ Synced.text e <> []
    /\ containCredits (Synced.text e) = false
    /\ isNaN (fst (tag_numbers (chr ":") time)) = false
    /\ isNaN (snd (tag_numbers (chr ":") time)) = false
    /\ Synced.startTime e
       = Num.mul (Num.add (Num.mul (fst (tag_numbers (chr ":") time)) (ofZ 60))
                    (snd (tag_numbers (chr ":") time)))
           (ofZ 1000).
Proof.
  unfold synced_line, tag_numbers.
  destruct p as [[time|] [text|]]; cbn [Parsed.time Parsed.text falsy orb];
    try discriminate.
  2: { destruct (isEmpty time); discriminate. }
  destruct (isEmpty time) eqn:Et; [discriminate|].
  destruct (isEmpty text) eqn:Ex; [discriminate|]. cbn [orb].
  intros H. exists time. revert H.
  destruct (first_two (split_on (chr ":") time)) as [key value]. cbn [fst snd].
  destruct (isNaN (parseFloat_opt key)) eqn:Ek; [discriminate|].
  destruct (isNaN (parseFloat_opt value)) eqn:Ev; [discriminate|].
  destruct (containCredits text) eqn:Ec; [discriminate|]. cbn [negb andb].
  intros H. injection H as <-. cbn [Synced.text Synced.startTime].
  repeat split; try assumption; now apply nonempty_not_nil.
Qed.

Lemma karaoke_line_some (line : jsstring) (e : Karaoke.t) :
  karaoke_line line = Some e ->
  exists time text,
    parseTimestamp line = {| Parsed.time := Some time; Parsed.text := Some text |}
    /\ time <> []
    /\ text <> []
    /\ containCredits text = false
    /\ isNaN (fst (tag_numbers comma time)) = false
    /\ isNaN (snd (tag_numbers comma time)) = false
    /\ Karaoke.startTime e = fst (tag_numbers comma time)
    /\ Karaoke.text e = breakdownLine text.
Proof.
  unfold karaoke_line, tag_numbers.
  destruct (parseTimestamp line) as [[time|] [text|]];
    cbn [Parsed.time Parsed.text falsy orb]; try discriminate.
  2: { destruct (isEmpty time); discriminate. }
  destruct (isEmpty time) eqn:Et; [discriminate|].
  destruct (isEmpty text) eqn:Ex; [discriminate|]. cbn [orb].
  intros H. exists time, text. revert H.
  destruct (first_two (split_on comma time)) as [key value]. cbn [fst snd].
  destruct (isNaN (parseFloat_opt key)) eqn:Ek; [discriminate|].
  destruct (isNaN (parseFloat_opt value)) eqn:Ev; [discriminate|].
  destruct (containCredits text) eqn:Ec; [discriminate|]. cbn [negb andb].
  intros H. injection H as <-. cbn [Karaoke.text Karaoke.startTime].
  repeat split; try assumption; now apply nonempty_not_nil.
Qed.

(** X9. A line [getSynced] returns comes from a line of the [lrc] block
    that parses into a time and a text: the text is the returned one, not
    empty and not a credit; the time, cut at [":"], starts with two numbers
    (neither is [NaN]) and the start time is [(min * 60 + sec) * 1000]; and
    no line of the block is the instrumental notice. *)
Theorem getSynced_lines (response : option Lyrics) (lyrics : list Synced.t) (e : Synced.t) :
  getSynced response = Some lyrics ->
  In e lyrics ->
  exists lyricStr line time,
    lyric_of lrc response = Some lyricStr
    /\ notice_in (lines_of lyricStr) = false
    /\ In line (lines_of lyricStr)
    /\ parseTimestamp line
       = {| Parsed.time := Some time; Parsed.text := Some (Synced.text e) |}
    /\ Synced.text e <> []
    /\ containCredits (Synced.text e) = false
    /\ isNaN (fst (tag_numbers (chr ":") time)) = false
    /\ isNaN (snd (tag_numbers (chr ":") time)) = false
    /\ Synced.startTime e
       = Num.mul (Num.add (Num.mul (fst (tag_numbers (chr ":") time)) (ofZ 60))
                    (snd (tag_numbers (chr ":") time)))
           (ofZ 1000).
Proof.
  destruct (lyric_of lrc response) as [lyricStr|] eqn:Eb.
  2: { unfold getSynced. rewrite Eb. discriminate. }
  rewrite (getSynced_eq _ Eb). destruct (isEmpty lyricStr); [discriminate|]. cbv zeta.
  fold (notice_in (lines_of lyricStr)).
  destruct (notice_in (lines_of lyricStr)) eqn:En; [now rewrite orb_true_r|].
  destruct (_ =? 0)%nat; [discriminate|]. simpl.
  intros H Hin. injection H as <-.
  apply compact_In, in_map_iff in Hin as (line & Hline & Hin).
  apply synced_line_some in Hline as (time & Hp & _ & Hrest).
  exists lyricStr, line, time. now repeat split.
Qed.

(** X10. A line [getKaraoke] returns comes from a line of the [klyric]
    block that parses into a time and a text: the text is not empty and
    not a credit, and the words returned are its tokens; the time, cut at
    [","], starts with two numbers (neither is [NaN]), the first of which is
    the start time. *)
Theorem getKaraoke_lines (response : option Lyrics) (karaoke : list Karaoke.t) (e : Karaoke.t) :
  getKaraoke response = Some karaoke ->
  In e karaoke ->
  exists lyricStr line time text,
    lyric_of klyric response = Some lyricStr
    /\ In line (lines_of lyricStr)
    /\ parseTimestamp line = {| Parsed.time := Some time; Parsed.text := Some text |}
    /\ text <> []
    /\ containCredits text = false
    /\ isNaN (fst (tag_numbers comma time)) = false
    /\ isNaN (snd (tag_numbers comma time)) = false
    /\ Karaoke.startTime e = fst (tag_numbers comma time)
    /\ Karaoke.text e = breakdownLine text.
Proof.
  unfold getKaraoke. destruct (lyric_of klyric response) as [lyricStr|]; [|discriminate].
  destruct (isEmpty lyricStr); [discriminate|]. cbv zeta.
  destruct (_ =? 0)%nat; [discriminate|].
  intros H Hin. injection H as <-.
  apply compact_In, in_map_iff in Hin as (line & Hline & Hin).
  apply karaoke_line_some in Hline as (time & text & Hp & _ & Hrest).
  exists lyricStr, line, time, text. now repeat split.
Qed.

(** X11. A line [getUnsynced] returns is what [parseTimestamp] makes of a
    line of the [lrc] block, as it is (the time is kept as written, or
    absent); its text is there, is not empty and is not a credit; and no
    line of the block is the instrumental notice. *)
Theorem getUnsynced_lines (response : option Lyrics) (lyrics : list Parsed.t) (e : Parsed.t) :
  getUnsynced response = Some lyrics ->
  In e lyrics ->
  exists lyricStr line text,
    lyric_of lrc response = Some lyricStr
    /\ notice_in (lines_of lyricStr) = false
    /\ In line (lines_of lyricStr)
    /\ parseTimestamp line = e
    /\ Parsed.text e = Some text
    /\ text <> []
    /\ containCredits text = false.
Proof.
  destruct (lyric_of lrc response) as [lyricStr|] eqn:Eb.
  2: { unfold getUnsynced. rewrite Eb. discriminate. }
  rewrite (getUnsynced_eq _ Eb). destruct (isEmpty lyricStr); [discriminate|]. cbv zeta.
  fold (notice_in (lines_of lyricStr)).
  destruct (notice_in (lines_of lyricStr)) eqn:En; [now rewrite orb_true_r|].
  destruct (_ =? 0)%nat; [discriminate|]. simpl.
  intros H Hin. injection H as <-.
  apply compact_In, in_map_iff in Hin as (line & Hline & Hin).
  destruct (Parsed.text (parseTimestamp line)) as [text|] eqn:Et; [|discriminate].
  simpl in Hline. destruct (isEmpty text) eqn:Ex; [discriminate|].
  destruct (containCredits text) eqn:Ec; [discriminate|]. simpl in Hline.
  injection Hline as <-.
  exists lyricStr, line, text. repeat split; try assumption.
  now apply nonempty_not_nil.
Qed.

(** X12. [getTranslation] is [getSynced] without the check of the notice:
    on one and the same block, [getSynced] returns [null] when a line is the
    instrumental notice, and what [getTranslation] returns otherwise. *)
Theorem getSynced_getTranslation
    (response response' : option Lyrics) (lyricStr : jsstring) :
  lyric_of lrc response = Some lyricStr ->
  lyric_of tlyric response' = Some lyricStr ->
  getSynced response
  = if notice_in (lines_of lyricStr) then None else getTranslation response'.
Proof.
  intros Hl Ht. rewrite (getSynced_eq _ Hl). unfold getTranslation. rewrite Ht.
  fold (notice_in (lines_of lyricStr)).
  destruct (isEmpty lyricStr); [now destruct (notice_in _)|]. cbv zeta.
  destruct (notice_in (lines_of lyricStr)); [now rewrite orb_true_r|].
  now rewrite orb_false_r.
Qed.

End Returned.

(** ** Lines of tags, lines of text *)

Lemma findIndex_none {A} (p : A -> bool) (l : list A) :
  forallb p l = true -> findIndex (fun x => negb (p x)) l = None.
Proof.
  induction l as [|x l IH]; simpl; [reflexivity|].
  intros H. apply andb_true_iff in H as [Hx Hl].
  now rewrite Hx, IH.
Qed.

Lemma compact_map_filter {A B} (keep : A -> bool) (mk : A -> B) (l : list A) :
  compact (map (fun x => if keep x then Some (mk x) else None) l)
  = map mk (filter keep l).
Proof.
  induction l as [|x l IH]; simpl; [reflexivity|].
  destruct (keep x); simpl; now rewrite IH.
Qed.

Lemma existsb_ext_in {A} (p q : A -> bool) (l : list A) :
  (forall x, In x l -> p x = q x) -> existsb p l = existsb q l.
Proof.
  induction l as [|x l IH]; simpl; intros H; [reflexivity|].
  rewrite (H x) by now left. rewrite IH; [reflexivity|].
  intros y Hy. apply H. now right.
Qed.

Section Lines.

Context {host : Host}.

(** A line of one span at most, with the test of line 97 as a boolean. *)
Lemma parseTimestamp_short (line : jsstring) :
  (List.length (spans line) <=? 1)%nat = true ->
  parseTimestamp line = {| Parsed.time := None; Parsed.text := Some line |}.
Proof.
  intros H. apply Nat.leb_le in H. unfold parseTimestamp.
  destruct (spans line) as [|a [|b l]]; [reflexivity | reflexivity |].
  simpl in H. lia.
Qed.

Lemma match_spans_nil (fuel : nat) : match_spans fuel [] = [].
Proof. now destruct fuel. Qed.

(** [.*?\]] reads a content free of ["]"] and of line terminators up to
    the closing bracket after it. *)
Lemma bracket_body_closed (body rest : jsstring) :
  forallb (fun c => negb (char_eqb c rbracket) && negb (isLineTerminator c)) body = true ->
  bracket_body (body ++ rbracket :: rest) = Some (body, rest).
Proof.
  induction body as [|c body IH]; simpl; intros H.
  - reflexivity.
  - apply andb_true_iff in H as [Hc Hb]. apply andb_true_iff in Hc as [Hr Ht].
    apply negb_true_iff in Hr, Ht. now rewrite Hr, Ht, IH.
Qed.

(** X1. A line with no bracket in it, and a line that is one tag and
    nothing else -- an opening bracket, a content with no closing bracket
    and no line terminator, a closing bracket -- come back whole as text and
    with no time, so that they give no line of [getKaraoke], [getSynced] or
    [getTranslation]: ["[ar:Beyond]"] is the text "[ar:Beyond]". *)
Theorem parseTimestamp_plain_or_lone_tag (line : jsstring) :
  forallb (fun c => negb (isBracket c)) line = true
  \/ (exists body,
        line = lbracket :: body ++ [rbracket]
        /\ forallb (fun c => negb (char_eqb c rbracket) && negb (isLineTerminator c)) body
           = true) ->
  parseTimestamp line = {| Parsed.time := None; Parsed.text := Some line |}
  /\ karaoke_line line = None
  /\ synced_line (parseTimestamp line) = None.
Proof.
  intros H.
  assert (Hp : parseTimestamp line = {| Parsed.time := None; Parsed.text := Some line |}).
  { apply parseTimestamp_short. unfold spans.
    destruct H as [Hplain|(body & -> & Hbody)].
    - destruct line as [|c s]; [reflexivity|].
      simpl in Hplain. apply andb_true_iff in Hplain as [Hc Hs].
      cbn [List.length]. rewrite match_spans_S.
      apply negb_true_iff in Hc. unfold isBracket in Hc.
      apply orb_false_iff in Hc as [Hl Hr]. rewrite Hl, Hr.
      pose proof (@span_all (fun d => negb (isBracket d)) s [] Hs I) as Hspan.
      rewrite app_nil_r in Hspan. rewrite Hspan, match_spans_nil. reflexivity.
    - cbn [List.length]. rewrite match_spans_S.
      change (char_eqb lbracket lbracket) with true. cbv iota.
      rewrite (@bracket_body_closed body [] Hbody), match_spans_nil. reflexivity. }
  split; [assumption|]. split.
  - unfold karaoke_line. now rewrite Hp.
  - now rewrite Hp.
Qed.

(** X13. A line that is two tags or more and nothing else has the content
    of its first tag for time and the empty string for text, so that it
    gives no line of [getKaraoke], [getSynced] or [getTranslation]. *)
Theorem parseTimestamp_tags_only (line : jsstring) :
  (2 <= List.length (spans line))%nat ->
  forallb isBracketed (spans line) = true ->
  parseTimestamp line
  = {| Parsed.time := Some (content (hd [] (spans line))); Parsed.text := Some [] |}
  /\ karaoke_line line = None
  /\ synced_line (parseTimestamp line) = None.
Proof.
  intros Hlen Hall.
  assert (Hp : parseTimestamp line
               = {| Parsed.time := Some (content (hd [] (spans line)));
                    Parsed.text := Some [] |}).
  { assert (Hidx : findIndex (fun slice => negb (endsWith slice rbracket)) (spans line)
                   = None).
    { rewrite (@findIndex_ext _ _ (fun s => negb (isBracketed s))).
      - now apply findIndex_none.
      - intros x Hx. now rewrite (@spans_endsWith line x Hx). }
    unfold parseTimestamp. rewrite Hidx.
    destruct (spans line) as [|a [|b l]] eqn:Es; [simpl in Hlen; lia | simpl in Hlen; lia |].
    cbn [List.length Nat.eqb orb nth hd].
    assert (Ha : tag_shape a).
    { assert (Hin : In a (spans line)) by (rewrite Es; now left).
      apply match_spans_shape in Hin as [H|H]; [assumption|].
      apply text_shape_ends in H as [_ H]. simpl in Hall.
      apply andb_true_iff in Hall as [Hb _]. congruence. }
    now rewrite (@strip_tag a Ha). }
  split; [assumption|]. split.
  - unfold karaoke_line. rewrite Hp. cbn [Parsed.time Parsed.text falsy isEmpty].
    now rewrite orb_true_r.
  - rewrite Hp. unfold synced_line. cbn [Parsed.time Parsed.text falsy isEmpty].
    now rewrite orb_true_r.
Qed.

(** X14. A block of plain lines -- no line of it has two spans -- gives
    nothing to [getSynced]; [getUnsynced] returns its lines that are neither
    empty nor credits, trimmed, whole and in order, with no time, unless
    there is none or a line is the instrumental notice. *)
Theorem getUnsynced_plain_lines (response : option Lyrics) (lyricStr : jsstring) :
  lyric_of lrc response = Some lyricStr ->
  forallb (fun line => (List.length (spans line) <=? 1)%nat) (lines_of lyricStr) = true ->
  getSynced response = None
  /\ getUnsynced response
     = if existsb (fun line => string_eqb line instrumental) (lines_of lyricStr)
       then None
       else match filter (fun line => negb (isEmpty line || containCredits line))
                    (lines_of lyricStr) with
            | [] => None
            | kept => Some (map (fun line => {| Parsed.time := None;
                                                Parsed.text := Some line |}) kept)
            end.
Proof.
  intros Hb Hall. rewrite forallb_forall in Hall.
  assert (Hnotice :
            existsb (fun line => strict_eq (Parsed.text (parseTimestamp line)) instrumental)
              (lines_of lyricStr)
            = existsb (fun line => string_eqb line instrumental) (lines_of lyricStr)).
  { apply existsb_ext_in. intros line Hin.
    now rewrite (@parseTimestamp_short line (Hall line Hin)). }
  split.
  - rewrite (getSynced_eq _ Hb). destruct (isEmpty lyricStr); [reflexivity|]. cbv zeta.
    rewrite compact_all_none; [reflexivity|].
    intros line Hin. now rewrite (@parseTimestamp_short line (Hall line Hin)).
  - rewrite (getUnsynced_eq _ Hb). cbv zeta. rewrite Hnotice.
    assert (Hmap :
              map (fun line =>
                     if falsy (Parsed.text (parseTimestamp line))
                        || containCredits_opt (Parsed.text (parseTimestamp line))
                     then None else Some (parseTimestamp line))
                  (lines_of lyricStr)
              = map (fun line =>
                       if negb (isEmpty line || containCredits line)
                       then Some {| Parsed.time := None; Parsed.text := Some line |}
                       else None)
                    (lines_of lyricStr)).
    { apply map_ext_in. intros line Hin.
      rewrite (@parseTimestamp_short line (Hall line Hin)).
      cbn [Parsed.text falsy containCredits_opt].
      now destruct (isEmpty line || containCredits line). }
    rewrite Hmap, compact_map_filter.
    destruct (isEmpty lyricStr) eqn:Ee.
    + destruct lyricStr; [|discriminate]. reflexivity.
    + destruct (filter _ (lines_of lyricStr)) as [|k kept]; simpl;
        destruct (existsb (fun line => string_eqb line instrumental) (lines_of lyricStr));
        reflexivity.
Qed.

End Lines.

(** ** findLyrics *)

Section FindLyricsFacts.

Context {host : Host} {client : Client}.

(** X15. [findLyrics] ends as [search] does when no song of the answered
    sequence satisfies the acceptance rule: it throws "Cannot find track".
    In every other case it returns the answer to one lyrics request, the
    one whose address ends in the id of the first song that satisfies the
    rule, written as the engine writes a number. *)
Theorem findLyrics_first_accepted (info : Info) :
  (findLyrics info = Throw NotFoundError
   /\ forall s, In s (CosmosAsync_get_songs (finalURL info)) -> ~ acceptance_rule info s)
  \/ exists before song after,
       CosmosAsync_get_songs (finalURL info) = before ++ song :: after
       /\ acceptance_rule info song
       /\ (forall s, In s before -> ~ acceptance_rule info s)
       /\ findLyrics info
          = Return (CosmosAsync_get (lyricURL ++ numberToString (id song))).
Proof.
  unfold findLyrics, search.
  destruct (best_match_total info (CosmosAsync_get_songs (finalURL info)))
    as [Hthrow|(song & _ & Hret)].
  - left. rewrite Hthrow. split; [reflexivity|].
    intros s Hs. apply accepted_not_rule.
    now apply (proj1 (best_match_throw info _) Hthrow).
  - right. rewrite Hret.
    apply best_match_return in Hret as (before & after & Hitems & Hacc & Hb).
    exists before, song, after. repeat split; try assumption.
    + now apply accepted_rule.
    + intros s Hs. apply accepted_not_rule. now apply Hb.
Qed.

End FindLyricsFacts.

(** ** These theorems on concrete inputs *)


(** X7 on a credit line. *)
Lemma containCredits_colon_required_witness :
  (In (chr ":") (str "Mixed by: Someone") \/ In wide_colon (str "Mixed by: Someone"))
  /\ forall more, containCredits (str "Mixed by: Someone" ++ more) = true.
Proof.
  apply (@containCredits_colon_required (str "Mixed by: Someone")).
  vm_compute. reflexivity.
Defined.

(** X9 on a block of two lines. *)
Lemma getSynced_lines_witness :
  @getSynced (sample_host []) (answer synced_block) = Some [first_line; second_line]
  /\ exists lyricStr line time,
       lyric_of lrc (answer synced_block) = Some lyricStr
       /\ notice_in (host := sample_host []) (lines_of lyricStr) = false
       /\ In line (lines_of lyricStr)
       /\ @parseTimestamp (sample_host []) line
          = {| Parsed.time := Some time; Parsed.text := Some (Synced.text second_line) |}
       /\ Synced.text second_line <> []
       /\ containCredits (Synced.text second_line) = false
       /\ isNaN (fst (tag_numbers (chr ":") time)) = false
       /\ isNaN (snd (tag_numbers (chr ":") time)) = false
       /\ Synced.startTime second_line
          = Num.mul (Num.add (Num.mul (fst (tag_numbers (chr ":") time)) (ofZ 60))
                       (snd (tag_numbers (chr ":") time)))
              (ofZ 1000).
Proof.
  split; [reflexivity|].
  apply (@getSynced_lines (sample_host []) (answer synced_block) [first_line; second_line]).
  - reflexivity.
  - right. left. reflexivity.
Defined.

(** X10 on the line of the source's comment, under its tag. *)
Lemma getKaraoke_lines_witness :
  @getKaraoke (sample_host []) (answer karaoke_block) = Some [karaoke_entry]
  /\ exists lyricStr line time text,
       lyric_of klyric (answer karaoke_block) = Some lyricStr
       /\ In line (lines_of lyricStr)
       /\ @parseTimestamp (sample_host []) line
          = {| Parsed.time := Some time; Parsed.text := Some text |}
       /\ text <> []
       /\ containCredits text = false
       /\ isNaN (fst (tag_numbers comma time)) = false
       /\ isNaN (snd (tag_numbers comma time)) = false
       /\ Karaoke.startTime karaoke_entry = fst (tag_numbers comma time)
       /\ Karaoke.text karaoke_entry = breakdownLine text.
Proof.
  split; [reflexivity|].
  apply (@getKaraoke_lines (sample_host []) (answer karaoke_block) [karaoke_entry]).
  - reflexivity.
  - left. reflexivity.
Defined.

(** X11 on a block with a timed line and a plain one. *)
Lemma getUnsynced_lines_witness :
  exists lyricStr line text,
    lyric_of lrc (answer (str "[00:01.00]first line" ++ newline ++ str "plain")) = Some lyricStr
    /\ notice_in (host := sample_host []) (lines_of lyricStr) = false
    /\ In line (lines_of lyricStr)
    /\ @parseTimestamp (sample_host []) line = plain_entry (str "plain")
    /\ Parsed.text (plain_entry (str "plain")) = Some text
    /\ text <> []
    /\ containCredits text = false.
Proof.
  apply (@getUnsynced_lines (sample_host [])
           (answer (str "[00:01.00]first line" ++ newline ++ str "plain"))
           [ {| Parsed.time := Some (str "00:01.00"); Parsed.text := Some (str "First line") |};
             plain_entry (str "plain") ]).
  - reflexivity.
  - right. left. reflexivity.
Defined.

(** X12 on a block with the notice. *)
Lemma getSynced_getTranslation_witness :
  @getSynced (sample_host []) (answer instrumental_block)
  = if notice_in (host := sample_host []) (lines_of instrumental_block)
    then None
    else @getTranslation (sample_host []) (answer instrumental_block).
Proof.
  exact (@getSynced_getTranslation (sample_host []) (answer instrumental_block)
           (answer instrumental_block) instrumental_block eq_refl eq_refl).
Defined.

Example notice_in_instrumental_block :
  notice_in (host := sample_host []) (lines_of instrumental_block) = true.
Proof. vm_compute. reflexivity. Qed.

Example getTranslation_keeps_notice :
  @getTranslation (sample_host []) (answer instrumental_block)
  = Some [ {| Synced.startTime := ofZ 1000; Synced.text := str "First line" |};
           {| Synced.startTime := ofZ 5000; Synced.text := instrumental |} ].
Proof. vm_compute. reflexivity. Qed.

(** X13 on a line of two tags. *)
Lemma parseTimestamp_tags_only_witness :
  @parseTimestamp (sample_host []) (str "[03:10][03:11]")
  = {| Parsed.time := Some (str "03:10"); Parsed.text := Some [] |}
  /\ @karaoke_line (sample_host []) (str "[03:10][03:11]") = None
  /\ @synced_line (@parseTimestamp (sample_host []) (str "[03:10][03:11]")) = None.
Proof.
  apply (@parseTimestamp_tags_only (sample_host []) (str "[03:10][03:11]")).
  - vm_compute. lia.
  - reflexivity.
Defined.

(** X14 on a block of four plain lines. *)
Lemma getUnsynced_plain_lines_witness :
  @getSynced (sample_host []) (answer plain_block) = None
  /\ @getUnsynced (sample_host []) (answer plain_block)
     = Some [plain_entry (str "plain text"); plain_entry (str "more")].
Proof.
  apply (@getUnsynced_plain_lines (sample_host []) (answer plain_block) plain_block).
  - reflexivity.
  - reflexivity.
Defined.

Example getUnsynced_lone_tag :
  @getUnsynced (sample_host []) (answer (str "[00:01.00]"))
  = Some [plain_entry (str "[00:01.00]")].
Proof. reflexivity. Qed.

Example findLyrics_found :
  @findLyrics (sample_host [other_song; album_song; duration_song])
    (sample_client (answer synced_block)) query
  = Return (answer synced_block).
Proof. reflexivity. Qed.

Example findLyrics_not_found :
  @findLyrics (sample_host [other_song; late_song]) (sample_client (answer synced_block)) query
  = Throw NotFoundError.
Proof. reflexivity. Qed.

Example lyric_address_of_id :
  lyricURL ++ numberToString 186016
  = str "https://pyncmd.apis.imouto.in/api/pyncm?module=track&method=GetTrackLyrics&song_id=186016".
Proof. reflexivity. Qed.

Example lyric_address_of_large_id :
  numberToString 9007199254740993 = str "9007199254740992"
  /\ numberToString (2 ^ 64) = str "18446744073709552000"
  /\ numberToString (10 ^ 21) = str "1e+21".
Proof. vm_compute. repeat split. Qed.

(** X1 on a line without a tag and on a lone tag. *)
Lemma parseTimestamp_plain_or_lone_tag_witness :
  @parseTimestamp (sample_host []) (str "[ar:Beyond]")
  = {| Parsed.time := None; Parsed.text := Some (str "[ar:Beyond]") |}
  /\ @karaoke_line (sample_host []) (str "[ar:Beyond]") = None
  /\ synced_line (@parseTimestamp (sample_host []) (str "[ar:Beyond]")) = None.
Proof.
  apply (@parseTimestamp_plain_or_lone_tag (sample_host []) (str "[ar:Beyond]")).
  right. exists (str "ar:Beyond"). split; reflexivity.
Defined.

Example parseTimestamp_plain_text :
  @parseTimestamp (sample_host []) (str "plain text")
  = {| Parsed.time := None; Parsed.text := Some (str "plain text") |}.
Proof. reflexivity. Qed.

(** Times are binary64 values: (0 * 60 + 2.01) * 1000 is
    2009.9999999999998, 1e400 is [Infinity], and a field of a marker is
    rounded from 2^53 on. *)
Example getSynced_startTime_rounds :
  @getSynced (sample_host []) (answer (str "[00:02.01]x"))
  = Some [ {| Synced.startTime := Fin (8840073487319039 # 4398046511104);
              Synced.text := str "X" |} ].
Proof. vm_compute. reflexivity. Qed.

Example getKaraoke_startTime_overflows :
  @getKaraoke (sample_host []) (answer (str "[1e400,1](0,5)x"))
  = Some [ {| Karaoke.startTime := Inf false;
              Karaoke.text := [ {| word := str "x "; time := ofZ 5 |} ] |} ].
Proof. vm_compute. reflexivity. Qed.

Example breakdownLine_time_rounds :
  breakdownLine (str "(0,9007199254740993)x")
  = [ {| word := str "x "; time := ofZ 9007199254740992 |} ].
Proof. vm_compute. reflexivity. Qed.

Example breakdownLine_time_overflows :
  breakdownLine (str "(0," ++ repeat (chr "9") 309 ++ str ")x")
  = [ {| word := str "x "; time := Inf false |} ].
Proof. vm_compute. reflexivity. Qed.
